(** * segmentation_models.utils.functional: metrics and losses

    A shallow embedding of [segmentation_models/utils/functional.py].

    The source functions are written against the Keras backend: every
    numeric kernel ([sum], [mean], [clip], [log], [pow], [greater], [cast]
    and the broadcasting arithmetic operators) is external to the file.
    The module [Backend] below is the model of that interface:

    - a tensor is a shape (a list of dimensions, axis 0 first) together with
      an element accessor taking a multi-index;
    - floating-point numbers are idealised as the real numbers of the
      Standard Library, so rounding, infinities and NaN are outside the
      model; where the source would divide by zero the theorems carry the
      hypothesis that excludes it;
    - a backend-level exception (an axis out of range, shapes that do not
      broadcast) is the value [None];
    - [log] is the natural logarithm, [pow] is [Rpower] (the meaning of the
      backend's [pow] on a positive base) and [clip x lo hi] is
      [min (max x lo) hi].

    After the backend come the five source functions, then the closed
    forms the specification gives for them, then the theorems. *)

From Stdlib Require Import Reals Lra Lia List Arith Bool FunctionalExtensionality.
Import ListNotations.
Open Scope R_scope.

(** ** Finite sums *)

(** [rsum n f] is f 0 + f 1 + ... + f (n-1). *)
Fixpoint rsum (n : nat) (f : nat -> R) : R :=
  match n with
  | O => 0
  | S k => rsum k f + f k
  end.

Module Backend.

(** *** Tensors *)

Record tensor : Type := mkT { shape : list nat; elt : list nat -> R }.

(** Values threaded through the source: a tensor, or a backend exception. *)
Definition result := option tensor.

Definition ok (t : tensor) : result := Some t.

Definition bind {A B : Type} (x : option A) (k : A -> option B) : option B :=
  match x with
  | Some a => k a
  | None => None
  end.

(** A Python float used in tensor arithmetic: a tensor of rank 0. *)
Definition scalar (x : R) : tensor := mkT [] (fun _ => x).

(** A Python list of floats used in tensor arithmetic: a tensor of rank 1. *)
Definition of_list (l : list R) : tensor :=
  mkT [length l] (fun i => nth (hd 0%nat i) l 0).

(** A tensor of the given shape filled with one value. *)
Definition full (s : list nat) (x : R) : tensor := mkT s (fun _ => x).

(** *** Broadcasting

    Shapes are aligned on their trailing axes; two dimensions are
    compatible when they are equal or one of them is 1. *)

Definition bdim (d1 d2 : nat) : option nat :=
  if Nat.eqb d1 d2 then Some d1
  else if Nat.eqb d1 1 then Some d2
  else if Nat.eqb d2 1 then Some d1
  else None.

(** On reversed shapes (trailing axis first). *)
Fixpoint bshape_rev (s1 s2 : list nat) : option (list nat) :=
  match s1, s2 with
  | [], _ => Some s2
  | _, [] => Some s1
  | d1 :: r1, d2 :: r2 =>
      bind (bdim d1 d2) (fun d =>
      bind (bshape_rev r1 r2) (fun r => Some (d :: r)))
  end.

Definition broadcast_shape (s1 s2 : list nat) : option (list nat) :=
  option_map (@rev nat) (bshape_rev (rev s1) (rev s2)).

(** The element of an operand of shape [s] that position [i] of the
    broadcast result reads: axes of size 1 are read at 0, leading axes
    the operand does not have are dropped.  Both lists reversed. *)
Fixpoint bindex_rev (s i : list nat) : list nat :=
  match s, i with
  | d :: s', x :: i' => (if Nat.eqb d 1 then 0%nat else x) :: bindex_rev s' i'
  | _, _ => []
  end.

Definition bindex (s i : list nat) : list nat :=
  rev (bindex_rev (rev s) (rev i)).

(** Elementwise binary operators ([*], [+], [-], [/] of the source). *)
Definition tmap2 (f : R -> R -> R) (a b : tensor) : result :=
  match broadcast_shape (shape a) (shape b) with
  | Some s =>
      Some (mkT s (fun i => f (elt a (bindex (shape a) i))
                              (elt b (bindex (shape b) i))))
  | None => None
  end.

Definition lift2 (f : R -> R -> R) (a b : result) : result :=
  bind a (fun x => bind b (fun y => tmap2 f x y)).

Definition tmap (f : R -> R) (a : tensor) : tensor :=
  mkT (shape a) (fun i => f (elt a i)).

Definition lift1 (f : R -> R) (a : result) : result :=
  bind a (fun x => Some (tmap f x)).

(** *** Reductions *)

Definition insert_at (k j : nat) (i : list nat) : list nat :=
  firstn k i ++ j :: skipn k i.

Definition remove_at (k : nat) (s : list nat) : list nat :=
  firstn k s ++ skipn (S k) s.

Definition set_at (k j : nat) (i : list nat) : list nat :=
  firstn k i ++ j :: skipn (S k) i.

(** Sum along one axis.  With [keepdims] the axis stays, with size 1. *)
Definition sum_axis (keepdims : bool) (k : nat) (t : tensor) : result :=
  if Nat.ltb k (length (shape t)) then
    Some (mkT (if keepdims then set_at k 1 (shape t) else remove_at k (shape t))
              (fun i => rsum (nth k (shape t) 0%nat)
                          (fun j => elt t (if keepdims then set_at k j i
                                           else insert_at k j i))))
  else None.

(** [backend.sum(x, axis=axes, keepdims=...)], [axes] in increasing order:
    the last axis of the list is reduced first, so that the positions of
    the remaining ones do not move. *)
Definition sum (x : result) (axes : list nat) (keepdims : bool) : result :=
  fold_right (fun k acc => bind acc (sum_axis keepdims k)) x axes.

(** [backend.mean(x, axis=k)]. *)
Definition mean_axis (x : result) (k : nat) : result :=
  bind x (fun t =>
  bind (sum_axis false k t) (fun s =>
  Some (tmap (fun v => v / INR (nth k (shape t) 0%nat)) s))).

(** The sum of all the elements of a tensor of shape [s]. *)
Fixpoint sum_all (s : list nat) (f : list nat -> R) : R :=
  match s with
  | [] => f []
  | d :: r => rsum d (fun j => sum_all r (fun i => f (j :: i)))
  end.

Definition size (s : list nat) : nat := fold_right Nat.mul 1%nat s.

(** [backend.mean(x)]: the mean of all the elements, a number. *)
Definition mean (x : result) : option R :=
  bind x (fun t => Some (sum_all (shape t) (elt t) / INR (size (shape t)))).

(** *** Elementwise kernels *)

(** [backend.cast(backend.greater(x, t), floatx)]: 1 where the element is
    strictly greater than [t], 0 elsewhere. *)
Definition greater (x t : R) : bool := if Rlt_dec t x then true else false.

Definition cast (b : bool) : R := if b then 1 else 0.

Definition clip (lo hi x : R) : R := Rmin (Rmax x lo) hi.

Definition log (x : R) : R := ln x.

Definition pow (x y : R) : R := Rpower x y.

Inductive data_format : Type := channels_last | channels_first.

(** The configuration the source reads from the backend. *)
Record config : Type :=
  mkConfig { epsilon : R; image_data_format : data_format }.

End Backend.

Import Backend.

Declare Scope tensor_scope.
Delimit Scope tensor_scope with T.
Notation "a *! b" := (lift2 Rmult a b) (at level 40, left associativity) : tensor_scope.
Notation "a /! b" := (lift2 Rdiv a b) (at level 40, left associativity) : tensor_scope.
Notation "a +! b" := (lift2 Rplus a b) (at level 50, left associativity) : tensor_scope.
Notation "a -! b" := (lift2 Rminus a b) (at level 50, left associativity) : tensor_scope.
Notation "# x" := (ok (scalar x)) (at level 9, x at level 9) : tensor_scope.
Open Scope tensor_scope.

(** ** The source functions *)

(** [SMOOTH = 1.] *)
Definition SMOOTH : R := 1.

(** [threshold]: [None], or the cut the predictions are rounded at. *)
Definition apply_threshold (threshold : option R) (pr : result) : result :=
  match threshold with
  | Some t => lift1 (fun x => cast (greater x t)) pr
  | None => pr
  end.

(** [iou_score(gt, pr, class_weights, smooth, per_image, threshold)]. *)
Definition iou_score (gt pr class_weights : tensor) (smooth : R)
    (per_image : bool) (threshold : option R) : option R :=
  let axes := if per_image then [1; 2]%nat else [0; 1; 2]%nat in
  let gt := ok gt in
  let pr := apply_threshold threshold (ok pr) in
  let intersection := sum (gt *! pr) axes false in
  let union := sum (gt +! pr) axes false -! intersection in
  let iou := (intersection +! #smooth) /! (union +! #smooth) in
  let iou := if per_image then mean_axis iou 0 else iou in
  mean (iou *! ok class_weights).

(** [f_score(gt, pr, class_weights, beta, smooth, per_image, threshold)]. *)
Definition f_score (gt pr class_weights : tensor) (beta smooth : R)
    (per_image : bool) (threshold : option R) : option R :=
  let axes := if per_image then [1; 2]%nat else [0; 1; 2]%nat in
  let gt := ok gt in
  let pr := apply_threshold threshold (ok pr) in
  let tp := sum (gt *! pr) axes false in
  let fp := sum pr axes false -! tp in
  let fn := sum gt axes false -! tp in
  let score := (#(1 + beta ^ 2) *! tp +! #smooth)
               /! (#(1 + beta ^ 2) *! tp +! #(beta ^ 2) *! fn +! fp +! #smooth) in
  let score := if per_image then mean_axis score 0 else score in
  mean (score *! ok class_weights).

(** [categorical_crossentropy(gt, pr, class_weights, backend=...)]. *)
Definition categorical_crossentropy (backend : config)
    (gt pr class_weights : tensor) : option R :=
  let axis := match image_data_format backend with
              | channels_last => 3%nat
              | channels_first => 1%nat
              end in
  let gt := ok gt in
  let pr := ok pr in
  let pr := pr /! sum pr [axis] true in
  let pr := lift1 (clip (epsilon backend) (1 - epsilon backend)) pr in
  let output := gt *! lift1 log pr *! ok class_weights in
  option_map Ropp (mean output).

(** [categorical_focal_loss(gt, pr, gamma, alpha, backend=...)]. *)
Definition categorical_focal_loss (backend : config)
    (gt pr : tensor) (gamma alpha : R) : option R :=
  let gt := ok gt in
  let pr := ok pr in
  let pr := lift1 (clip (epsilon backend) (1 - epsilon backend)) pr in
  let cross_entropy := lift1 Ropp gt *! lift1 log pr in
  let weight := #alpha *! gt *! lift2 pow (#1 -! pr) #gamma in
  let loss := weight *! cross_entropy in
  mean loss.

(** [focal_loss(gt, pr, gamma, alpha, backend=...)]. *)
Definition focal_loss (backend : config)
    (gt pr : tensor) (gamma alpha : R) : option R :=
  let one_minus (t : tensor) := #1 -! ok t in
  let l1 := categorical_focal_loss backend gt pr gamma alpha in
  let l2 := bind (one_minus gt) (fun ngt =>
            bind (one_minus pr) (fun npr =>
            categorical_focal_loss backend ngt npr gamma alpha)) in
  bind l1 (fun a => bind l2 (fun b => Some (a + b))).

(** ** The formulas of the specification *)

Module Spec.

Section Formulas.

(** The shape (batch, height, width, channels). *)
Variables B H W C : nat.

(** Elements are addressed by batch, row, column and channel. *)
Definition field : Type := nat -> nat -> nat -> nat -> R.

(** The sum over the reduction axes that channel [c] (and, per image,
    image [b]) takes part in. *)
Definition reduce (per_image : bool) (x : field) (b c : nat) : R :=
  if per_image
  then rsum H (fun h => rsum W (fun w => x b h w c))
  else rsum B (fun b' => rsum H (fun h => rsum W (fun w => x b' h w c))).

(** An entry is replaced by 1 if it is strictly greater than the cut
    and by 0 otherwise; without a cut it is left as it is. *)
Definition binarize (threshold : option R) (x : R) : R :=
  match threshold with
  | Some t => if Rlt_dec t x then 1 else 0
  | None => x
  end.

(** The mean over the batch axis if per image. *)
Definition over_batch (per_image : bool) (score : nat -> nat -> R)
    (c : nat) : R :=
  if per_image then rsum B (fun b => score b c) / INR B else score 0%nat c.

(** The mean of score times weight over the class axis. *)
Definition weighted_mean (w score : nat -> R) : R :=
  rsum C (fun c => score c * w c) / INR C.

Definition iou_block (gt pr : field) (smooth : R) (per_image : bool)
    (b c : nat) : R :=
  let intersection := reduce per_image (fun b h w c => gt b h w c * pr b h w c) b c in
  let union := reduce per_image (fun b h w c => gt b h w c + pr b h w c) b c
               - intersection in
  (intersection + smooth) / (union + smooth).

Definition iou_formula (gt pr : field) (w : nat -> R) (smooth : R)
    (per_image : bool) (threshold : option R) : R :=
  let pr := fun b h w c => binarize threshold (pr b h w c) in
  weighted_mean w (over_batch per_image (iou_block gt pr smooth per_image)).

Definition f_block (gt pr : field) (beta smooth : R) (per_image : bool)
    (b c : nat) : R :=
  let tp := reduce per_image (fun b h w c => gt b h w c * pr b h w c) b c in
  let fp := reduce per_image pr b c - tp in
  let fn := reduce per_image gt b c - tp in
  ((1 + beta ^ 2) * tp + smooth)
  / ((1 + beta ^ 2) * tp + beta ^ 2 * fn + fp + smooth).

Definition f_formula (gt pr : field) (w : nat -> R) (beta smooth : R)
    (per_image : bool) (threshold : option R) : R :=
  let pr := fun b h w c => binarize threshold (pr b h w c) in
  weighted_mean w (over_batch per_image (f_block gt pr beta smooth per_image)).

End Formulas.

End Spec.

(** The element of a rank-4 tensor at batch [b], row [h], column [w],
    channel [c]. *)
Definition at4 (t : tensor) : Spec.field := fun b h w c => elt t [b; h; w; c].

(** The weight of channel [c]: the number itself when [class_weights] is
    a number, its entry [c] when it is a list. *)
Definition weight_of (class_weights : tensor) (c : nat) : R :=
  match shape class_weights with
  | [] => elt class_weights []
  | _ => elt class_weights [c]
  end.

(** [class_weights] is a number or a list of [C] numbers. *)
Definition weights_for (C : nat) (class_weights : tensor) : Prop :=
  shape class_weights = [] \/ shape class_weights = [C].

(** ** The formulas of the specification: losses *)

Module LossSpec.

Section Formulas.

(** The backend's fuzz factor. *)
Variable eps : R.

(** The mean of all the elements of a tensor of shape [s]. *)
Definition mean_all (s : list nat) (x : list nat -> R) : R :=
  sum_all s x / INR (size s).

Definition clipped (x : R) : R := clip eps (1 - eps) x.

(** The sum of the predictions along axis [k] through position [i]. *)
Definition axis_sum (s : list nat) (k : nat) (pr : list nat -> R)
    (i : list nat) : R :=
  rsum (nth k s 0%nat) (fun j => pr (set_at k j i)).

(** The predictions divided by their sum along the channel axis. *)
Definition normalize (s : list nat) (k : nat) (pr : list nat -> R)
    (i : list nat) : R :=
  pr i / axis_sum s k pr i.

(** minus the mean of gt * log(pr) * weights, on normalized and clipped
    predictions; the weights run along the last axis. *)
Definition crossentropy_formula (s : list nat) (k : nat)
    (gt pr : list nat -> R) (w : nat -> R) : R :=
  - mean_all s (fun i =>
      gt i * log (clipped (normalize s k pr i)) * w (last i 0%nat)).

(** minus the mean of alpha * gt * (1 - pr)^gamma * log(pr), on clipped
    predictions. *)
Definition focal_formula (s : list nat) (gt pr : list nat -> R)
    (gamma alpha : R) : R :=
  - mean_all s (fun i =>
      alpha * gt i * pow (1 - clipped (pr i)) gamma * log (clipped (pr i))).

(** The same with the ground truth squared. *)
Definition focal_squared_formula (s : list nat) (gt pr : list nat -> R)
    (gamma alpha : R) : R :=
  - mean_all s (fun i =>
      alpha * (gt i * gt i) * pow (1 - clipped (pr i)) gamma
      * log (clipped (pr i))).

End Formulas.

End LossSpec.

(** The axis the source takes for the channels. *)
Definition channel_axis (backend : config) : nat :=
  match image_data_format backend with
  | channels_last => 3%nat
  | channels_first => 1%nat
  end.

(** ** Predicates used by the theorems *)

(** An index is in range for a shape: same rank, every coordinate below
    its dimension. *)
Definition in_range (s i : list nat) : Prop := Forall2 lt i s.

(** [has x s f]: the computation [x] succeeded with a tensor of shape [s]
    whose element at every index [i] in range is [f i]. *)
Definition has (x : result) (s : list nat) (f : list nat -> R) : Prop :=
  exists t, x = Some t /\ shape t = s /\
            forall i, in_range s i -> elt t i = f i.

(** The prediction binarized at the cut [t]: every entry is replaced by 1
    if it is strictly greater than [t] and by 0 otherwise. *)
Definition binarized (t : R) (pr : tensor) : tensor :=
  mkT (shape pr) (fun i => if Rlt_dec t (elt pr i) then 1 else 0).

(** A tensor filled with 1s. *)
Definition ones (s : list nat) : tensor := full s 1.

(** Ground truth and prediction do not overlap: their elementwise product
    is zero everywhere. *)
Definition disjoint (B H W C : nat) (gt pr : tensor) : Prop :=
  forall b h w c, (b < B)%nat -> (h < H)%nat -> (w < W)%nat -> (c < C)%nat ->
                  at4 gt b h w c * at4 pr b h w c = 0.

(** The weight vector [a * w + b * w'], entry by entry. *)
Definition lincomb (a : R) (w : list R) (b : R) (w' : list R) : list R :=
  map (fun p => a * fst p + b * snd p) (combine w w').

(** Every entry of the tensor is 0 or 1. *)
Definition binary (t : tensor) : Prop :=
  forall i, in_range (shape t) i -> elt t i = 0 \/ elt t i = 1.

(** The union of ground truth and prediction over the reduction block of
    image [b] and channel [c], when they do not overlap. *)
Definition union_of (B H W : nat) (per_image : bool) (gt pr : tensor)
    (b c : nat) : R :=
  Spec.reduce B H W per_image (fun b h w c => at4 gt b h w c + at4 pr b h w c) b c.

(** The number of positions in a reduction block. *)
Definition block (B H W : nat) (per_image : bool) : nat :=
  if per_image then (H * W)%nat else (B * (H * W))%nat.

(** The score of channel [c] before the class weights are applied. *)
Definition iou_per_class (B H W : nat) (gt pr : tensor) (smooth : R)
    (per_image : bool) (threshold : option R) (c : nat) : R :=
  Spec.over_batch B per_image
    (Spec.iou_block B H W (at4 gt)
       (fun b h w c => Spec.binarize threshold (at4 pr b h w c))
       smooth per_image) c.

Definition f_per_class (B H W : nat) (gt pr : tensor) (beta smooth : R)
    (per_image : bool) (threshold : option R) (c : nat) : R :=
  Spec.over_batch B per_image
    (Spec.f_block B H W (at4 gt)
       (fun b h w c => Spec.binarize threshold (at4 pr b h w c))
       beta smooth per_image) c.

(** The mean over the [C] channels of score times weight. *)
Definition channel_mean (C : nat) (score : nat -> R) (w : list R) : R :=
  rsum C (fun c => score c * nth c w 0) / INR C.

(** The loss of one element of ground truth [g] predicted at [p]: the
    opposite of the term the source averages. *)
Definition element_loss (eps gamma alpha g p : R) : R :=
  - (alpha * (g * g) * pow (1 - LossSpec.clipped eps p) gamma
     * log (LossSpec.clipped eps p)).



(** ** Further predicates and the binary cross-entropy *)

(** Every entry of a tensor of shape (B, H, W, C) lies in [0, 1]. *)
Definition in_unit (B H W C : nat) (t : tensor) : Prop :=
  forall b h w c, (b < B)%nat -> (h < H)%nat -> (w < W)%nat -> (c < C)%nat ->
                  0 <= at4 t b h w c <= 1.

(** Every entry of a tensor of shape (B, H, W, C) is 0: an empty mask. *)
Definition empty_mask (B H W C : nat) (t : tensor) : Prop :=
  forall b h w c, (b < B)%nat -> (h < H)%nat -> (w < W)%nat -> (c < C)%nat ->
                  at4 t b h w c = 0.

(** Every entry of a tensor of shape (B, H, W, C) is 0 or 1. *)
Definition binary_mask (B H W C : nat) (t : tensor) : Prop :=
  forall b h w c, (b < B)%nat -> (h < H)%nat -> (w < W)%nat -> (c < C)%nat ->
                  at4 t b h w c = 0 \/ at4 t b h w c = 1.

(** Every class weight lies in [0, 1]. *)
Definition weights_unit (C : nat) (class_weights : tensor) : Prop :=
  forall c, (c < C)%nat -> 0 <= weight_of class_weights c <= 1.

(** No class weight is negative. *)
Definition weights_nonneg (C : nat) (class_weights : tensor) : Prop :=
  forall c, (c < C)%nat -> 0 <= weight_of class_weights c.

(** The tensor with every entry multiplied by [k]. *)
Definition scaled (k : R) (t : tensor) : tensor := tmap (Rmult k) t.

(** The thresholds that leave an entry 0 at 0. *)
Definition keeps_zero (threshold : option R) : Prop :=
  match threshold with
  | Some t => 0 <= t
  | None => True
  end.

(** [backend.binary_crossentropy(target, output)], the elementwise kernel
    as Keras defines it: the output is clipped to [epsilon, 1 - epsilon]
    and the result is
    - (target * log(output) + (1 - target) * log(1 - output)). *)
Definition binary_crossentropy (backend : config) (target output : result)
    : result :=
  let output := lift1 (clip (epsilon backend) (1 - epsilon backend)) output in
  lift1 Ropp (target *! lift1 log output
              +! (#1 -! target) *! lift1 log (#1 -! output)).

(** [bianary_crossentropy(gt, pr, backend=...)]. *)
Definition bianary_crossentropy (backend : config) (gt pr : tensor) : option R :=
  mean (binary_crossentropy backend (ok gt) (ok pr)).

(** The binary cross-entropy of one element. *)
Definition element_bce (eps g p : R) : R :=
  - (g * log (LossSpec.clipped eps p)
     + (1 - g) * log (1 - LossSpec.clipped eps p)).

(** ** Reasoning about the backend *)

Section Sums.

Lemma rsum_ext (n : nat) (f g : nat -> R) :
  (forall j, (j < n)%nat -> f j = g j) -> rsum n f = rsum n g.
Proof.
  induction n as [|n IH]; intros E; simpl; [reflexivity|].
  rewrite IH by (intros j Hj; apply E; lia).
  rewrite (E n) by lia. reflexivity.
Qed.

Lemma rsum_const (n : nat) (x : R) : rsum n (fun _ => x) = INR n * x.
Proof.
  induction n as [|n IH]; [simpl; ring|].
  rewrite S_INR. simpl. rewrite IH. ring.
Qed.

Lemma rsum_zero (n : nat) (f : nat -> R) :
  (forall j, (j < n)%nat -> f j = 0) -> rsum n f = 0.
Proof.
  intros E. rewrite (rsum_ext n f (fun _ => 0) E), rsum_const. ring.
Qed.

Lemma rsum_plus (n : nat) (f g : nat -> R) :
  rsum n (fun j => f j + g j) = rsum n f + rsum n g.
Proof. induction n as [|n IH]; simpl; [ring | rewrite IH; ring]. Qed.

Lemma rsum_scale (n : nat) (k : R) (f : nat -> R) :
  rsum n (fun j => k * f j) = k * rsum n f.
Proof. induction n as [|n IH]; simpl; [ring | rewrite IH; ring]. Qed.

Lemma rsum_le (n : nat) (f g : nat -> R) :
  (forall j, (j < n)%nat -> f j <= g j) -> rsum n f <= rsum n g.
Proof.
  induction n as [|n IH]; intros E; simpl; [lra|].
  assert (rsum n f <= rsum n g) by (apply IH; intros j Hj; apply E; lia).
  assert (f n <= g n) by (apply E; lia). lra.
Qed.

Lemma rsum_swap (n m : nat) (f : nat -> nat -> R) :
  rsum n (fun i => rsum m (fun j => f i j)) =
  rsum m (fun j => rsum n (fun i => f i j)).
Proof.
  induction n as [|n IH]; simpl.
  - symmetry. apply rsum_zero. reflexivity.
  - rewrite IH, <- rsum_plus. reflexivity.
Qed.

End Sums.

Section Indices.

Lemma Forall2_rev_lt (i s : list nat) :
  Forall2 lt i s -> Forall2 lt (rev i) (rev s).
Proof.
  induction 1 as [|x d i s Hx _ IH]; simpl; [constructor|].
  apply Forall2_app; [exact IH | repeat constructor; exact Hx].
Qed.

Lemma bindex_rev_in_range (s i : list nat) :
  Forall2 lt i s -> bindex_rev s i = i.
Proof.
  induction 1 as [|x d i s Hx _ IH]; simpl; [reflexivity|].
  rewrite IH. destruct (Nat.eqb_spec d 1); [f_equal; lia | reflexivity].
Qed.

Lemma bindex_in_range (s i : list nat) : in_range s i -> bindex s i = i.
Proof.
  intros Hi. unfold bindex.
  rewrite bindex_rev_in_range by (apply Forall2_rev_lt, Hi).
  apply rev_involutive.
Qed.

Lemma bindex_nil (i : list nat) : bindex [] i = [].
Proof. reflexivity. Qed.

Lemma bdim_same (d : nat) : bdim d d = Some d.
Proof. unfold bdim. rewrite Nat.eqb_refl. reflexivity. Qed.

Lemma bdim_one_r (d : nat) : bdim d 1 = Some d.
Proof.
  unfold bdim. destruct (Nat.eqb_spec d 1) as [->|_]; [reflexivity|].
  reflexivity.
Qed.

Lemma bshape_rev_same (s : list nat) : bshape_rev s s = Some s.
Proof.
  induction s as [|d s IH]; simpl; [reflexivity|].
  rewrite bdim_same, IH. reflexivity.
Qed.

Lemma broadcast_shape_same (s : list nat) : broadcast_shape s s = Some s.
Proof.
  unfold broadcast_shape. rewrite bshape_rev_same. simpl.
  rewrite rev_involutive. reflexivity.
Qed.

Lemma broadcast_shape_nil_r (s : list nat) : broadcast_shape s [] = Some s.
Proof.
  unfold broadcast_shape. simpl.
  destruct (rev s) eqn:E; simpl; rewrite <- (rev_involutive s), E; reflexivity.
Qed.

Lemma broadcast_shape_nil_l (s : list nat) : broadcast_shape [] s = Some s.
Proof.
  unfold broadcast_shape. simpl. rewrite rev_involutive. reflexivity.
Qed.

(** A coordinate read through an operand of dimension [d1] stays below
    [d1] when it is below the broadcast dimension. *)
Lemma bdim_read (d1 d2 d x : nat) :
  bdim d1 d2 = Some d -> (x < d)%nat ->
  ((if Nat.eqb d1 1 then 0 else x) < d1)%nat.
Proof.
  unfold bdim. intros E Hx.
  destruct (Nat.eqb_spec d1 1) as [->|N1]; [lia|].
  destruct (Nat.eqb_spec d1 d2); [congruence|].
  destruct (Nat.eqb_spec d2 1); congruence.
Qed.

Lemma bindex_rev_left (s1 : list nat) :
  forall s2 s i, bshape_rev s1 s2 = Some s -> Forall2 lt i s ->
                 Forall2 lt (bindex_rev s1 i) s1.
Proof.
  induction s1 as [|d1 r1 IH]; intros s2 s i E Hi; [constructor|].
  destruct s2 as [|d2 r2]; simpl in E.
  - injection E as <-. rewrite bindex_rev_in_range by exact Hi. exact Hi.
  - destruct (bdim d1 d2) as [d|] eqn:Ed; [|discriminate]. simpl in E.
    destruct (bshape_rev r1 r2) as [r|] eqn:Er; [|discriminate]. simpl in E.
    injection E as <-. inversion Hi as [|x d' i' r' Hx Hi']; subst. simpl.
    constructor; [eapply bdim_read; eassumption | eapply IH; eassumption].
Qed.

Lemma bdim_comm (d1 d2 : nat) : bdim d1 d2 = bdim d2 d1.
Proof.
  unfold bdim.
  destruct (Nat.eqb_spec d1 d2), (Nat.eqb_spec d2 d1),
    (Nat.eqb_spec d1 1), (Nat.eqb_spec d2 1); congruence.
Qed.

Lemma bshape_rev_comm (s1 : list nat) :
  forall s2, bshape_rev s1 s2 = bshape_rev s2 s1.
Proof.
  induction s1 as [|d1 r1 IH]; intros [|d2 r2]; simpl; try reflexivity.
  rewrite bdim_comm, IH. reflexivity.
Qed.

Lemma bindex_left (s1 s2 s i : list nat) :
  broadcast_shape s1 s2 = Some s -> in_range s i -> in_range s1 (bindex s1 i).
Proof.
  unfold broadcast_shape, in_range, bindex. intros E Hi.
  destruct (bshape_rev (rev s1) (rev s2)) as [r|] eqn:Er; [|discriminate].
  simpl in E. injection E as <-.
  rewrite <- (rev_involutive s1) at 2. apply Forall2_rev_lt.
  eapply bindex_rev_left; [exact Er|].
  rewrite <- (rev_involutive r). apply Forall2_rev_lt. exact Hi.
Qed.

Lemma bindex_right (s1 s2 s i : list nat) :
  broadcast_shape s1 s2 = Some s -> in_range s i -> in_range s2 (bindex s2 i).
Proof.
  intros E. apply (bindex_left s2 s1).
  unfold broadcast_shape in *. rewrite bshape_rev_comm. exact E.
Qed.

End Indices.

Section Denotation.

Lemma has_ok (t : tensor) : has (ok t) (shape t) (elt t).
Proof. exists t. repeat split. Qed.

Lemma has_mk (s : list nat) (f : list nat -> R) : has (ok (mkT s f)) s f.
Proof. apply (has_ok (mkT s f)). Qed.

Lemma has_scalar (x : R) : has (ok (scalar x)) [] (fun _ => x).
Proof. apply has_mk. Qed.

Lemma has_weaken (x : result) (s : list nat) (f g : list nat -> R) :
  has x s f -> (forall i, in_range s i -> f i = g i) -> has x s g.
Proof.
  intros (t & -> & Hs & Hf) E. exists t. repeat split; [exact Hs|].
  intros i Hi. rewrite Hf, E by exact Hi. reflexivity.
Qed.

Lemma has_lift1 (op : R -> R) (x : result) (s : list nat) (f : list nat -> R) :
  has x s f -> has (lift1 op x) s (fun i => op (f i)).
Proof.
  intros (t & -> & Hs & Hf). eexists. split; [reflexivity|].
  split; [exact Hs|]. intros i Hi. simpl. rewrite Hf by exact Hi. reflexivity.
Qed.

(** The general case of a binary operator: the operands are read through
    the broadcast. *)
Lemma has_lift2 (op : R -> R -> R) (a b : result) (s1 s2 s : list nat)
    (f g : list nat -> R) :
  has a s1 f -> has b s2 g -> broadcast_shape s1 s2 = Some s ->
  has (lift2 op a b) s (fun i => op (f (bindex s1 i)) (g (bindex s2 i))).
Proof.
  intros (ta & -> & Ha & Hf) (tb & -> & Hb & Hg) E.
  unfold lift2, bind, tmap2. rewrite Ha, Hb, E.
  eexists. split; [reflexivity|]. split; [reflexivity|].
  intros i Hi. simpl.
  rewrite Hf by (eapply bindex_left; eassumption).
  rewrite Hg by (eapply bindex_right; eassumption).
  reflexivity.
Qed.

Lemma has_lift2_same (op : R -> R -> R) (a b : result) (s : list nat)
    (f g : list nat -> R) :
  has a s f -> has b s g ->
  has (lift2 op a b) s (fun i => op (f i) (g i)).
Proof.
  intros Ha Hb.
  eapply has_weaken;
    [exact (has_lift2 op a b s s s f g Ha Hb (broadcast_shape_same s))|].
  intros i Hi. simpl. rewrite bindex_in_range by exact Hi. reflexivity.
Qed.

(** An operand of rank 0 (a Python number) broadcasts to any shape. *)
Lemma has_lift2_rank0_r (op : R -> R -> R) (a b : result) (s : list nat)
    (f g : list nat -> R) :
  has a s f -> has b [] g ->
  has (lift2 op a b) s (fun i => op (f i) (g [])).
Proof.
  intros Ha Hb.
  eapply has_weaken;
    [exact (has_lift2 op a b s [] s f g Ha Hb (broadcast_shape_nil_r s))|].
  intros i Hi. simpl. rewrite bindex_nil, bindex_in_range by exact Hi.
  reflexivity.
Qed.

Lemma has_lift2_rank0_l (op : R -> R -> R) (a b : result) (s : list nat)
    (f g : list nat -> R) :
  has a [] f -> has b s g ->
  has (lift2 op a b) s (fun i => op (f []) (g i)).
Proof.
  intros Ha Hb.
  eapply has_weaken;
    [exact (has_lift2 op a b [] s s f g Ha Hb (broadcast_shape_nil_l s))|].
  intros i Hi. simpl. rewrite bindex_nil, bindex_in_range by exact Hi.
  reflexivity.
Qed.

Lemma skipn_nth (k : nat) : forall s : list nat,
  (k < length s)%nat -> skipn k s = nth k s 0%nat :: skipn (S k) s.
Proof.
  induction k as [|k IH]; intros [|d s] Hk; simpl in *; try lia.
  - reflexivity.
  - apply IH. lia.
Qed.

(** Splitting an index at an axis. *)
Lemma in_range_insert (k j : nat) (s i : list nat) :
  (k < length s)%nat -> in_range (remove_at k s) i ->
  (j < nth k s 0)%nat -> in_range s (insert_at k j i).
Proof.
  unfold in_range, remove_at, insert_at. intros Hk Hi Hj.
  apply Forall2_app_inv_r in Hi as (i1 & i2 & H1 & H2 & ->).
  assert (L1 : length i1 = k).
  { rewrite (Forall2_length H1), length_firstn. lia. }
  subst k. rewrite firstn_app, skipn_app, Nat.sub_diag, firstn_all, skipn_all.
  simpl. rewrite app_nil_r.
  rewrite <- (firstn_skipn (length i1) s), (skipn_nth _ s Hk).
  apply Forall2_app; [exact H1|].
  constructor; [exact Hj | exact H2].
Qed.

Lemma in_range_set (k j : nat) (s i : list nat) :
  (k < length s)%nat -> in_range (set_at k 1 s) i ->
  (j < nth k s 0)%nat -> in_range s (set_at k j i).
Proof.
  unfold in_range, set_at. intros Hk Hi Hj.
  apply Forall2_app_inv_r in Hi as (i1 & i2 & H1 & H2 & ->).
  inversion H2 as [|x d i2' r' Hx H2' E1 E2]; subst.
  assert (L1 : length i1 = k).
  { rewrite (Forall2_length H1), length_firstn. lia. }
  subst k.
  assert (Hsk : skipn (S (length i1)) (i1 ++ x :: i2') = i2').
  { clear. induction i1 as [|y i1 IH]; [reflexivity | exact IH]. }
  rewrite Hsk, firstn_app, Nat.sub_diag, firstn_all.
  change (firstn 0 (x :: i2')) with (@nil nat). rewrite app_nil_r.
  rewrite <- (firstn_skipn (length i1) s), (skipn_nth _ s Hk).
  apply Forall2_app; [exact H1|].
  constructor; [exact Hj | exact H2'].
Qed.

Lemma has_sum_axis (x : result) (s : list nat) (f : list nat -> R) (k : nat) :
  has x s f -> (k < length s)%nat ->
  has (bind x (sum_axis false k)) (remove_at k s)
      (fun i => rsum (nth k s 0%nat) (fun j => f (insert_at k j i))).
Proof.
  intros (t & -> & Hs & Hf) Hk. unfold bind, sum_axis. rewrite Hs.
  apply Nat.ltb_lt in Hk as Hk'. rewrite Hk'.
  eexists. split; [reflexivity|]. split; [reflexivity|].
  intros i Hi. simpl. apply rsum_ext. intros j Hj.
  apply Hf, in_range_insert; assumption.
Qed.

Lemma has_sum_axis_keepdims (x : result) (s : list nat) (f : list nat -> R)
    (k : nat) :
  has x s f -> (k < length s)%nat ->
  has (bind x (sum_axis true k)) (set_at k 1 s)
      (fun i => rsum (nth k s 0%nat) (fun j => f (set_at k j i))).
Proof.
  intros (t & -> & Hs & Hf) Hk. unfold bind, sum_axis. rewrite Hs.
  apply Nat.ltb_lt in Hk as Hk'. rewrite Hk'.
  eexists. split; [reflexivity|]. split; [reflexivity|].
  intros i Hi. simpl. apply rsum_ext. intros j Hj.
  apply Hf, in_range_set; assumption.
Qed.

Lemma has_mean_axis (x : result) (s : list nat) (f : list nat -> R) (k : nat) :
  has x s f -> (k < length s)%nat ->
  has (mean_axis x k) (remove_at k s)
      (fun i => rsum (nth k s 0%nat) (fun j => f (insert_at k j i))
                / INR (nth k s 0%nat)).
Proof.
  intros Hx Hk. pose proof (has_sum_axis x s f k Hx Hk) as Hsum.
  destruct Hx as (t & -> & Hs & Hf).
  destruct Hsum as (u & Eu & Hus & Huf). simpl in Eu.
  unfold mean_axis, bind. rewrite Eu, Hs.
  eexists. split; [reflexivity|]. split; [exact Hus|].
  intros i Hi. simpl. rewrite Huf by exact Hi. reflexivity.
Qed.

Lemma sum_all_ext (s : list nat) :
  forall f g : list nat -> R,
    (forall i, in_range s i -> f i = g i) -> sum_all s f = sum_all s g.
Proof.
  induction s as [|d s IH]; intros f g E; simpl.
  - apply E. constructor.
  - apply rsum_ext. intros j Hj. apply IH. intros i Hi.
    apply E. constructor; assumption.
Qed.

Lemma sum_all_opp (s : list nat) :
  forall f : list nat -> R, sum_all s (fun i => - f i) = - sum_all s f.
Proof.
  induction s as [|d s IH]; intros f; simpl; [reflexivity|].
  rewrite (rsum_ext d _ (fun j => -1 * sum_all s (fun i => f (j :: i)))).
  - rewrite rsum_scale. ring.
  - intros j _. rewrite IH. ring.
Qed.

Lemma sum_all_plus (s : list nat) :
  forall f g : list nat -> R,
    sum_all s (fun i => f i + g i) = sum_all s f + sum_all s g.
Proof.
  induction s as [|d s IH]; intros f g; simpl; [reflexivity|].
  rewrite <- rsum_plus. apply rsum_ext. intros j _. apply IH.
Qed.

Lemma sum_all_const (s : list nat) (x : R) :
  sum_all s (fun _ => x) = INR (size s) * x.
Proof.
  induction s as [|d s IH]; simpl; [ring|].
  rewrite (rsum_ext d _ (fun _ => INR (size s) * x)) by (intros; apply IH).
  rewrite rsum_const, mult_INR. ring.
Qed.

Lemma sum_all_le (s : list nat) :
  forall f g : list nat -> R,
    (forall i, in_range s i -> f i <= g i) -> sum_all s f <= sum_all s g.
Proof.
  induction s as [|d s IH]; intros f g E; simpl.
  - apply E. constructor.
  - apply rsum_le. intros j Hj. apply IH. intros i Hi.
    apply E. constructor; assumption.
Qed.

Lemma has_mean (x : result) (s : list nat) (f : list nat -> R) :
  has x s f -> mean x = Some (sum_all s f / INR (size s)).
Proof.
  intros (t & -> & Hs & Hf). unfold mean, bind. rewrite Hs.
  rewrite (sum_all_ext s (elt t) f Hf). reflexivity.
Qed.

End Denotation.

Lemma has_threshold (threshold : option R) (s : list nat) (f : list nat -> R) :
  has (apply_threshold threshold (ok (mkT s f))) s
      (fun i => Spec.binarize threshold (f i)).
Proof.
  destruct threshold as [t|]; cbn [apply_threshold]; [|apply has_mk].
  eapply has_weaken; [apply has_lift1, has_mk|].
  intros i _. simpl. unfold cast, greater. destruct (Rlt_dec t (f i)); reflexivity.
Qed.

Ltac has_step :=
  lazymatch goal with
  | |- has (ok (mkT _ _)) _ _ => apply has_mk
  | |- has (ok (scalar _)) _ _ => apply has_scalar
  | |- has (apply_threshold _ _) _ _ => apply has_threshold
  | |- has (bind _ (sum_axis false _)) _ _ =>
      eapply has_sum_axis; [has_step | simpl; lia]
  | |- has (mean_axis _ _) _ _ =>
      eapply has_mean_axis; [has_step | simpl; lia]
  | |- has (lift2 _ _ (ok (scalar _))) _ _ =>
      eapply has_lift2_rank0_r; [has_step | apply has_scalar]
  | |- has (lift2 _ (ok (scalar _)) _) _ _ =>
      eapply has_lift2_rank0_l; [apply has_scalar | has_step]
  | |- has (lift2 _ _ _) _ _ => eapply has_lift2_same; [has_step | has_step]
  | |- has (lift1 _ _) _ _ => eapply has_lift1; has_step
  end.

Ltac closed_form :=
  cbv beta iota delta
    [remove_at insert_at firstn skipn app nth sum_all size fold_right
     Spec.iou_formula Spec.f_formula Spec.weighted_mean Spec.over_batch
     Spec.iou_block Spec.f_block Spec.reduce at4 weight_of shape elt];
  rewrite Nat.mul_1_r; reflexivity.

Section ClosedForms.

Variables B H W C : nat.

Lemma iou_score_closed_form (gt pr cw : tensor) (smooth : R)
    (per_image : bool) (threshold : option R) :
  shape gt = [B; H; W; C] -> shape pr = [B; H; W; C] -> weights_for C cw ->
  iou_score gt pr cw smooth per_image threshold =
  Some (Spec.iou_formula B H W C (at4 gt) (at4 pr) (weight_of cw)
          smooth per_image threshold).
Proof.
  intros Hgt Hpr Hcw. destruct gt as [sg g], pr as [sp p], cw as [sw w].
  simpl in Hgt, Hpr. subst sg sp. unfold iou_score.
  destruct per_image, Hcw as [Hw|Hw]; simpl in Hw; subst sw; cbn [sum fold_right].
  - erewrite has_mean by (eapply has_lift2_rank0_r; [has_step|apply has_mk]).
    closed_form.
  - erewrite has_mean by (eapply has_lift2_same; [has_step|apply has_mk]).
    closed_form.
  - erewrite has_mean by (eapply has_lift2_rank0_r; [has_step|apply has_mk]).
    closed_form.
  - erewrite has_mean by (eapply has_lift2_same; [has_step|apply has_mk]).
    closed_form.
Qed.

Lemma f_score_closed_form (gt pr cw : tensor) (beta smooth : R)
    (per_image : bool) (threshold : option R) :
  shape gt = [B; H; W; C] -> shape pr = [B; H; W; C] -> weights_for C cw ->
  f_score gt pr cw beta smooth per_image threshold =
  Some (Spec.f_formula B H W C (at4 gt) (at4 pr) (weight_of cw)
          beta smooth per_image threshold).
Proof.
  intros Hgt Hpr Hcw. destruct gt as [sg g], pr as [sp p], cw as [sw w].
  simpl in Hgt, Hpr. subst sg sp. unfold f_score.
  destruct per_image, Hcw as [Hw|Hw]; simpl in Hw; subst sw; cbn [sum fold_right].
  - erewrite has_mean by (eapply has_lift2_rank0_r; [has_step|apply has_mk]).
    closed_form.
  - erewrite has_mean by (eapply has_lift2_same; [has_step|apply has_mk]).
    closed_form.
  - erewrite has_mean by (eapply has_lift2_rank0_r; [has_step|apply has_mk]).
    closed_form.
  - erewrite has_mean by (eapply has_lift2_same; [has_step|apply has_mk]).
    closed_form.
Qed.

End ClosedForms.

Section Losses.

Lemma in_range4 (d0 d1 d2 d3 : nat) (i : list nat) :
  in_range [d0; d1; d2; d3] i ->
  exists a b c d, i = [a; b; c; d] /\
                  (a < d0 /\ b < d1 /\ c < d2 /\ d < d3)%nat.
Proof.
  intros Hi.
  inversion Hi as [|a ? i1 ? Ha H1]; subst.
  inversion H1 as [|b ? i2 ? Hb H2]; subst.
  inversion H2 as [|c ? i3 ? Hc H3]; subst.
  inversion H3 as [|d ? i4 ? Hd H4]; subst.
  inversion H4; subst. exists a, b, c, d. auto.
Qed.

Lemma read_lt (d x : nat) : (x < d)%nat -> (if Nat.eqb d 1 then 0%nat else x) = x.
Proof. intros Hx. destruct (Nat.eqb_spec d 1); lia. Qed.

(** Dividing by the sum kept along axis 3 or 1 of a rank-4 tensor. *)
Lemma has_normalize (p : list nat -> R) (d0 d1 d2 d3 k : nat) :
  k = 3%nat \/ k = 1%nat ->
  has (ok (mkT [d0; d1; d2; d3] p)
       /! sum (ok (mkT [d0; d1; d2; d3] p)) [k] true)
      [d0; d1; d2; d3] (LossSpec.normalize [d0; d1; d2; d3] k p).
Proof.
  intros Hk. cbn [sum fold_right].
  assert (Hb : broadcast_shape [d0; d1; d2; d3] (set_at k 1 [d0; d1; d2; d3])
               = Some [d0; d1; d2; d3]).
  { destruct Hk as [-> | ->]; unfold broadcast_shape; cbn [set_at firstn skipn app rev bshape_rev];
      rewrite ?bdim_same, ?bdim_one_r; reflexivity. }
  eapply has_weaken.
  - eapply has_lift2; [apply has_mk | | exact Hb].
    eapply has_sum_axis_keepdims; [apply has_mk|].
    destruct Hk as [-> | ->]; simpl; lia.
  - intros i Hi. cbv beta. rewrite (bindex_in_range _ _ Hi).
    unfold LossSpec.normalize, LossSpec.axis_sum. f_equal.
    apply rsum_ext. intros j _. f_equal.
    apply in_range4 in Hi as (a & b & c & d & -> & Ha & Hb' & Hc & Hd).
    destruct Hk as [-> | ->];
      cbv [bindex bindex_rev rev app set_at firstn skipn];
      rewrite ?Nat.eqb_refl, ?(read_lt _ _ Ha), ?(read_lt _ _ Hb'),
        ?(read_lt _ _ Hc), ?(read_lt _ _ Hd); reflexivity.
Qed.

(** Multiplying a rank-4 tensor by the class weights. *)
Lemma has_weights (x : result) (f : list nat -> R) (cw : tensor)
    (d0 d1 d2 d3 : nat) :
  has x [d0; d1; d2; d3] f -> weights_for d3 cw ->
  has (x *! ok cw) [d0; d1; d2; d3]
      (fun i => f i * weight_of cw (last i 0%nat)).
Proof.
  intros Hx Hcw. destruct cw as [sw w].
  destruct Hcw as [Hw|Hw]; simpl in Hw; subst sw.
  - eapply has_weaken; [eapply has_lift2_rank0_r; [exact Hx | apply has_mk]|].
    intros i _. reflexivity.
  - eapply has_weaken.
    + eapply has_lift2; [exact Hx | apply has_mk |].
      unfold broadcast_shape. cbn [rev app bshape_rev].
      rewrite bdim_same. reflexivity.
    + intros i Hi. cbv beta. rewrite (bindex_in_range _ _ Hi).
      apply in_range4 in Hi as (a & b & c & d & -> & Ha & Hb & Hc & Hd).
      cbv [bindex bindex_rev rev app weight_of shape elt last].
      rewrite (read_lt _ _ Hd). reflexivity.
Qed.

Lemma categorical_crossentropy_closed_form (backend : config)
    (gt pr cw : tensor) (d0 d1 d2 d3 : nat) :
  shape gt = [d0; d1; d2; d3] -> shape pr = [d0; d1; d2; d3] ->
  weights_for d3 cw ->
  categorical_crossentropy backend gt pr cw =
  Some (LossSpec.crossentropy_formula (epsilon backend) [d0; d1; d2; d3]
          (channel_axis backend) (elt gt) (elt pr) (weight_of cw)).
Proof.
  intros Hgt Hpr Hcw. destruct gt as [sg g], pr as [sp p].
  simpl in Hgt, Hpr. subst sg sp.
  unfold categorical_crossentropy. fold (channel_axis backend).
  assert (Hk : channel_axis backend = 3%nat \/ channel_axis backend = 1%nat).
  { unfold channel_axis. destruct (image_data_format backend); auto. }
  erewrite has_mean.
  2:{ apply has_weights; [|exact Hcw].
      eapply has_lift2_same; [apply has_mk|].
      apply has_lift1, has_lift1, has_normalize, Hk. }
  reflexivity.
Qed.

Lemma categorical_focal_loss_closed_form (backend : config)
    (gt pr : tensor) (gamma alpha : R) :
  shape pr = shape gt ->
  categorical_focal_loss backend gt pr gamma alpha =
  Some (LossSpec.focal_squared_formula (epsilon backend) (shape gt)
          (elt gt) (elt pr) gamma alpha).
Proof.
  intros Hpr. destruct gt as [s g], pr as [sp p]. simpl in Hpr. subst sp.
  unfold categorical_focal_loss.
  erewrite has_mean by has_step.
  unfold LossSpec.focal_squared_formula, LossSpec.mean_all. cbn [shape elt].
  f_equal. rewrite <- Rdiv_opp_l, <- sum_all_opp. f_equal.
  apply sum_all_ext. intros i _. unfold LossSpec.clipped. ring.
Qed.

End Losses.

(** ** Properties of the formulas *)

Section FormulaLemmas.

Variables B H W C : nat.

Lemma reduce_const (per_image : bool) (x : R) (b c : nat) :
  Spec.reduce B H W per_image (fun _ _ _ _ => x) b c = INR (block B H W per_image) * x.
Proof.
  unfold Spec.reduce, block. destruct per_image.
  - rewrite (rsum_ext H _ (fun _ => INR W * x)) by (intros; apply rsum_const).
    rewrite rsum_const, mult_INR. ring.
  - rewrite (rsum_ext B _ (fun _ => INR H * (INR W * x))).
    + rewrite rsum_const, !mult_INR. ring.
    + intros j _.
      rewrite (rsum_ext H _ (fun _ => INR W * x)) by (intros; apply rsum_const).
      apply rsum_const.
Qed.

Lemma reduce_ext (per_image : bool) (x y : Spec.field) (b c : nat) :
  (forall b h w, (b < B)%nat -> (h < H)%nat -> (w < W)%nat ->
                 x b h w c = y b h w c) ->
  (per_image = true -> (b < B)%nat) ->
  Spec.reduce B H W per_image x b c = Spec.reduce B H W per_image y b c.
Proof.
  intros E Hb. unfold Spec.reduce. destruct per_image.
  - apply rsum_ext. intros h Hh. apply rsum_ext. intros w Hw.
    apply E; auto.
  - apply rsum_ext. intros b' Hb'. apply rsum_ext. intros h Hh.
    apply rsum_ext. intros w Hw. apply E; auto.
Qed.

Lemma over_batch_ext (per_image : bool) (s s' : nat -> nat -> R) (c : nat) :
  (0 < B)%nat -> (forall b, (b < B)%nat -> s b c = s' b c) ->
  Spec.over_batch B per_image s c = Spec.over_batch B per_image s' c.
Proof.
  intros HB E. unfold Spec.over_batch. destruct per_image.
  - f_equal. apply rsum_ext. exact E.
  - apply E. exact HB.
Qed.

Lemma weighted_mean_ext (w s s' : nat -> R) :
  (forall c, (c < C)%nat -> s c = s' c) ->
  Spec.weighted_mean C w s = Spec.weighted_mean C w s'.
Proof.
  intros E. unfold Spec.weighted_mean. f_equal. apply rsum_ext.
  intros c Hc. rewrite (E c Hc). reflexivity.
Qed.

Lemma rsum_mean_lower (n : nat) (f : nat -> R) (lo : R) :
  (0 < n)%nat -> (forall j, (j < n)%nat -> lo <= f j) -> lo <= rsum n f / INR n.
Proof.
  intros Hn E.
  assert (Hpos : 0 < INR n) by (apply lt_0_INR; exact Hn).
  assert (Hs : INR n * lo <= rsum n f).
  { rewrite <- rsum_const. apply rsum_le. exact E. }
  apply (Rmult_le_reg_l (INR n)); [exact Hpos|].
  replace (INR n * (rsum n f / INR n)) with (rsum n f) by (field; lra).
  exact Hs.
Qed.

Lemma rsum_lt (n : nat) (f g : nat -> R) :
  (0 < n)%nat -> (forall j, (j < n)%nat -> f j < g j) -> rsum n f < rsum n g.
Proof.
  intros Hn E. destruct n as [|n]; [lia|]. clear Hn.
  induction n as [|n IH].
  - simpl. assert (f 0%nat < g 0%nat) by (apply E; lia). lra.
  - change (rsum (S n) f + f (S n) < rsum (S n) g + g (S n)).
    assert (rsum (S n) f < rsum (S n) g) by (apply IH; intros j Hj; apply E; lia).
    assert (f (S n) < g (S n)) by (apply E; lia). lra.
Qed.

Lemma rsum_mean_upper (n : nat) (f : nat -> R) (hi : R) :
  (0 < n)%nat -> (forall j, (j < n)%nat -> f j < hi) -> rsum n f / INR n < hi.
Proof.
  intros Hn E.
  assert (Hpos : 0 < INR n) by (apply lt_0_INR; exact Hn).
  assert (Hs : rsum n f < INR n * hi).
  { rewrite <- rsum_const. apply rsum_lt; assumption. }
  apply (Rmult_lt_reg_l (INR n)); [exact Hpos|].
  replace (INR n * (rsum n f / INR n)) with (rsum n f) by (field; lra).
  exact Hs.
Qed.

Lemma rsum_mean_const (n : nat) (x : R) :
  (0 < n)%nat -> rsum n (fun _ => x) / INR n = x.
Proof.
  intros Hn. rewrite rsum_const. field.
  apply not_0_INR. lia.
Qed.

(** The score of a block is 1 when the three sums are those of tensors of
    1s. *)
Lemma iou_block_ones (smooth : R) (per_image : bool) (b c : nat) :
  0 < smooth ->
  Spec.iou_block B H W (fun _ _ _ _ => 1) (fun _ _ _ _ => 1)
    smooth per_image b c = 1.
Proof.
  intros Hs. unfold Spec.iou_block.
  rewrite (reduce_const per_image (1 * 1)), (reduce_const per_image (1 + 1)).
  pose proof (pos_INR (block B H W per_image)) as Hn.
  field. lra.
Qed.

Lemma f_block_ones (beta smooth : R) (per_image : bool) (b c : nat) :
  0 < smooth ->
  Spec.f_block B H W (fun _ _ _ _ => 1) (fun _ _ _ _ => 1)
    beta smooth per_image b c = 1.
Proof.
  intros Hs. unfold Spec.f_block.
  rewrite (reduce_const per_image (1 * 1)), (reduce_const per_image 1).
  pose proof (pos_INR (block B H W per_image)) as Hn.
  pose proof (pow2_ge_0 beta) as Hb.
  field. nra.
Qed.

Lemma weighted_mean_ones (per_image : bool) :
  (0 < B)%nat -> (0 < C)%nat ->
  Spec.weighted_mean C (fun _ => 1)
    (Spec.over_batch B per_image (fun _ _ => 1)) = 1.
Proof.
  intros HB HC. unfold Spec.weighted_mean, Spec.over_batch.
  destruct per_image.
  - rewrite (rsum_mean_const B 1 HB). rewrite (rsum_mean_const C (1 * 1) HC). ring.
  - rewrite (rsum_mean_const C (1 * 1) HC). ring.
Qed.

End FormulaLemmas.

Lemma nth_lincomb (a b : R) (w w' : list R) (c : nat) :
  length w = length w' -> (c < length w)%nat ->
  nth c (lincomb a w b w') 0 = a * nth c w 0 + b * nth c w' 0.
Proof.
  intros Hl Hc. unfold lincomb.
  set (F := fun p : R * R => a * fst p + b * snd p).
  rewrite (nth_indep _ 0 (F (0, 0))).
  - rewrite (map_nth F), combine_nth by exact Hl. reflexivity.
  - rewrite length_map, length_combine, <- Hl, Nat.min_id. exact Hc.
Qed.

Lemma channel_mean_lincomb (C : nat) (score : nat -> R) (a b : R)
    (w w' : list R) :
  length w = C -> length w' = C ->
  channel_mean C score (lincomb a w b w')
  = a * channel_mean C score w + b * channel_mean C score w'.
Proof.
  intros Hw Hw'. unfold channel_mean.
  rewrite (rsum_ext C _ (fun c => a * (score c * nth c w 0)
                                  + b * (score c * nth c w' 0))).
  - rewrite rsum_plus, !rsum_scale. unfold Rdiv. ring.
  - intros c Hc. rewrite nth_lincomb by congruence. ring.
Qed.

(** ** Clipping, logarithm and power *)

Section Clipping.

Variable eps : R.
Hypothesis eps_pos : 0 < eps.
Hypothesis eps_half : eps <= 1 / 2.

Lemma clipped_cases (x : R) :
  (x <= eps /\ LossSpec.clipped eps x = eps)
  \/ (eps <= x <= 1 - eps /\ LossSpec.clipped eps x = x)
  \/ (1 - eps <= x /\ LossSpec.clipped eps x = 1 - eps).
Proof.
  unfold LossSpec.clipped, clip, Rmin, Rmax.
  destruct (Rle_dec x eps) as [H1|H1];
    [destruct (Rle_dec eps (1 - eps)) | destruct (Rle_dec x (1 - eps))];
    first [ left; split; lra
          | right; left; split; lra
          | right; right; split; lra ].
Qed.

Lemma clipped_range (x : R) : eps <= LossSpec.clipped eps x <= 1 - eps.
Proof.
  destruct (clipped_cases x) as [[_ ->] | [[H ->] | [_ ->]]]; lra.
Qed.


Lemma ln_mono (x y : R) : 0 < x -> x <= y -> ln x <= ln y.
Proof.
  intros Hx [Hlt | ->]; [left; apply ln_increasing; assumption | right; reflexivity].
Qed.

(** The logarithm lies below its tangent at 1. *)
Lemma ln_tangent (x : R) : 0 < x -> ln x <= x - 1.
Proof.
  intros Hx. pose proof (exp_ineq1_le (x - 1)) as H.
  replace (1 + (x - 1)) with x in H by ring.
  rewrite <- (ln_exp (x - 1)). apply ln_mono; assumption.
Qed.

Lemma neg_ln_upper (x : R) : 0 < x -> - ln x <= (1 - x) / x.
Proof.
  intros Hx. rewrite <- ln_Rinv by exact Hx.
  pose proof (ln_tangent (/ x) (Rinv_0_lt_compat x Hx)) as H.
  replace ((1 - x) / x) with (/ x - 1) by (field; lra). exact H.
Qed.

Lemma neg_ln_clipped (x : R) :
  0 <= - ln (1 - eps) <= - log (LossSpec.clipped eps x).
Proof.
  pose proof (clipped_range x) as Hc. unfold log. split.
  - assert (ln (1 - eps) <= ln 1) by (apply ln_mono; lra).
    rewrite ln_1 in *. lra.
  - assert (ln (LossSpec.clipped eps x) <= ln (1 - eps)) by (apply ln_mono; lra).
    lra.
Qed.

Lemma pow_one (gamma : R) : pow 1 gamma = 1.
Proof. unfold pow, Rpower. rewrite ln_1, Rmult_0_r. apply exp_0. Qed.

Lemma pow_clipped (gamma x : R) :
  0 <= gamma ->
  0 < pow eps gamma <= pow (1 - LossSpec.clipped eps x) gamma
  /\ pow (1 - LossSpec.clipped eps x) gamma <= 1.
Proof.
  intros Hg. pose proof (clipped_range x) as Hc. unfold pow. repeat split.
  - unfold Rpower. apply exp_pos.
  - apply Rle_Rpower_l; [exact Hg | lra].
  - apply Rle_trans with (Rpower 1 gamma); [|right; apply pow_one].
    apply Rle_Rpower_l; [exact Hg | lra].
Qed.


Lemma element_loss_nonneg (gamma alpha g p : R) :
  0 <= alpha -> 0 <= gamma -> 0 <= element_loss eps gamma alpha g p.
Proof.
  intros Ha Hg. unfold element_loss.
  destruct (pow_clipped gamma p Hg) as [[Hp1 Hp2] _].
  destruct (neg_ln_clipped p) as [Hl1 Hl2].
  assert (0 <= g * g) by nra.
  assert (0 <= alpha * (g * g) * pow (1 - LossSpec.clipped eps p) gamma).
  { apply Rmult_le_pos; [apply Rmult_le_pos; lra | lra]. }
  rewrite Ropp_mult_distr_r. apply Rmult_le_pos; lra.
Qed.




(** An element predicted at its own value. *)
Lemma element_loss_self (gamma alpha g : R) :
  0 <= alpha -> 0 <= gamma -> 0 <= g <= 1 ->
  element_loss eps gamma alpha g g <= alpha * (g * (1 - g) + 2 * eps).
Proof.
  intros Ha Hg Hr. unfold element_loss.
  destruct (pow_clipped gamma g Hg) as [[Hp1 Hp2] Hp3].
  destruct (neg_ln_clipped g) as [Hl1 Hl2].
  pose proof (clipped_range g) as Hc.
  pose proof (neg_ln_upper (LossSpec.clipped eps g)) as Hu.
  unfold log in *.
  set (c := LossSpec.clipped eps g) in *.
  set (P := pow (1 - c) gamma) in *.
  set (L := - ln c) in *.
  replace (- (alpha * (g * g) * P * ln c)) with (alpha * (g * g * (P * L)))
    by (unfold L; ring).
  apply Rmult_le_compat_l; [exact Ha|].
  assert (HPL : P * L <= L).
  { rewrite <- (Rmult_1_l L) at 2. apply Rmult_le_compat_r; lra. }
  assert (HL : L <= (1 - c) / c) by (apply Hu; lra).
  assert (Hq : g * g * ((1 - c) / c) <= g * (1 - g) + 2 * eps).
  { apply (Rmult_le_reg_r c); [lra|].
    replace (g * g * ((1 - c) / c) * c) with (g * g * (1 - c)) by (field; lra).
    destruct (clipped_cases g) as [[H E] | [[H E] | [H E]]];
      fold c in E; rewrite E; nra. }
  assert (0 <= g * g) by nra.
  assert (0 <= P * L) by (apply Rmult_le_pos; lra).
  assert (g * g * (P * L) <= g * g * ((1 - c) / c)).
  { apply Rmult_le_compat_l; lra. }
  lra.
Qed.

End Clipping.

Section FocalLoss.

Lemma mean_all_ext (s : list nat) (f g : list nat -> R) :
  (forall i, in_range s i -> f i = g i) ->
  LossSpec.mean_all s f = LossSpec.mean_all s g.
Proof.
  intros E. unfold LossSpec.mean_all. rewrite (sum_all_ext s f g E). reflexivity.
Qed.

Lemma mean_all_plus (s : list nat) (f g : list nat -> R) :
  LossSpec.mean_all s (fun i => f i + g i)
  = LossSpec.mean_all s f + LossSpec.mean_all s g.
Proof. unfold LossSpec.mean_all. rewrite sum_all_plus. unfold Rdiv. ring. Qed.

Lemma mean_all_opp (s : list nat) (f : list nat -> R) :
  LossSpec.mean_all s (fun i => - f i) = - LossSpec.mean_all s f.
Proof. unfold LossSpec.mean_all. rewrite sum_all_opp. unfold Rdiv. ring. Qed.

Lemma mean_all_const (s : list nat) (x : R) :
  (0 < size s)%nat -> LossSpec.mean_all s (fun _ => x) = x.
Proof.
  intros Hs. unfold LossSpec.mean_all. rewrite sum_all_const. field.
  apply not_0_INR. lia.
Qed.

Lemma mean_all_le (s : list nat) (f g : list nat -> R) :
  (0 < size s)%nat -> (forall i, in_range s i -> f i <= g i) ->
  LossSpec.mean_all s f <= LossSpec.mean_all s g.
Proof.
  intros Hs E. unfold LossSpec.mean_all, Rdiv.
  apply Rmult_le_compat_r; [|apply sum_all_le, E].
  apply Rlt_le, Rinv_0_lt_compat, lt_0_INR, Hs.
Qed.

Lemma mean_all_scale (s : list nat) (k : R) (f : list nat -> R) :
  LossSpec.mean_all s (fun i => k * f i) = k * LossSpec.mean_all s f.
Proof.
  unfold LossSpec.mean_all.
  assert (E : sum_all s (fun i => k * f i) = k * sum_all s f).
  { revert f. induction s as [|d s IH]; intros f; simpl; [reflexivity|].
    rewrite <- rsum_scale. apply rsum_ext. intros j _. apply IH. }
  rewrite E. unfold Rdiv. ring.
Qed.

Lemma focal_squared_as_mean (eps : R) (s : list nat) (g p : list nat -> R)
    (gamma alpha : R) :
  LossSpec.focal_squared_formula eps s g p gamma alpha
  = LossSpec.mean_all s (fun i => element_loss eps gamma alpha (g i) (p i)).
Proof.
  unfold LossSpec.focal_squared_formula. rewrite <- mean_all_opp. reflexivity.
Qed.

(** [focal_loss] is the mean, over the elements, of the loss of the
    element plus the loss of its complement. *)
Lemma focal_loss_closed_form (backend : config) (gt pr : tensor)
    (gamma alpha : R) :
  shape pr = shape gt ->
  focal_loss backend gt pr gamma alpha =
  Some (LossSpec.mean_all (shape gt) (fun i =>
          element_loss (epsilon backend) gamma alpha (elt gt i) (elt pr i)
          + element_loss (epsilon backend) gamma alpha
              (1 - elt gt i) (1 - elt pr i))).
Proof.
  intros Hpr. unfold focal_loss.
  rewrite (categorical_focal_loss_closed_form backend gt pr gamma alpha Hpr).
  destruct (has_lift2_rank0_l Rminus _ _ _ _ _ (has_scalar 1) (has_ok gt))
    as (ngt & -> & Hsg & Hg).
  destruct (has_lift2_rank0_l Rminus _ _ _ _ _ (has_scalar 1) (has_ok pr))
    as (npr & -> & Hsp & Hp).
  cbn [bind].
  rewrite (categorical_focal_loss_closed_form backend ngt npr gamma alpha)
    by congruence.
  cbn [bind]. f_equal. rewrite mean_all_plus, !focal_squared_as_mean, Hsg.
  f_equal. apply mean_all_ext. intros i Hi.
  rewrite Hg by exact Hi. rewrite Hp by (rewrite Hpr; exact Hi). reflexivity.
Qed.

End FocalLoss.

Section GroundTruth.

Variable eps : R.
Hypothesis eps_pos : 0 < eps.
Hypothesis eps_half : eps <= 1 / 2.
Variables gamma alpha : R.
Hypothesis alpha_nonneg : 0 <= alpha.
Hypothesis gamma_nonneg : 0 <= gamma.

Lemma mean_all_affine (s : list nat) (a b : R) (f : list nat -> R) :
  (0 < size s)%nat ->
  LossSpec.mean_all s (fun i => a * f i + b) = a * LossSpec.mean_all s f + b.
Proof.
  intros Hs.
  rewrite (mean_all_plus s (fun i => a * f i) (fun _ => b)).
  rewrite mean_all_scale, mean_all_const by exact Hs. reflexivity.
Qed.

Lemma pair_loss_nonneg (g p : R) :
  0 <= element_loss eps gamma alpha g p
       + element_loss eps gamma alpha (1 - g) (1 - p).
Proof.
  pose proof (element_loss_nonneg eps eps_pos eps_half gamma alpha g p
                alpha_nonneg gamma_nonneg).
  pose proof (element_loss_nonneg eps eps_pos eps_half gamma alpha (1 - g) (1 - p)
                alpha_nonneg gamma_nonneg).
  lra.
Qed.

Lemma pair_loss_self (g : R) :
  0 <= g <= 1 ->
  element_loss eps gamma alpha g g
  + element_loss eps gamma alpha (1 - g) (1 - g)
  <= 2 * alpha * (g * (1 - g)) + 4 * alpha * eps.
Proof.
  intros Hg.
  pose proof (element_loss_self eps eps_pos eps_half gamma alpha g
                alpha_nonneg gamma_nonneg Hg) as H1.
  assert (Hg' : 0 <= 1 - g <= 1) by lra.
  pose proof (element_loss_self eps eps_pos eps_half gamma alpha (1 - g)
                alpha_nonneg gamma_nonneg Hg') as H2.
  replace (1 - (1 - g)) with g in H2 by ring.
  nra.
Qed.



End GroundTruth.

Section Normalization.

Lemma rsum_div (n : nat) (f : nat -> R) (d : R) :
  rsum n (fun j => f j / d) = rsum n f / d.
Proof.
  unfold Rdiv. rewrite (rsum_ext n _ (fun j => / d * f j)) by (intros; ring).
  rewrite rsum_scale. ring.
Qed.

(** After the division the entries along the channel axis sum to 1. *)
Lemma normalize_sums_to_one (d0 d1 d2 d3 k : nat) (p : list nat -> R)
    (i : list nat) :
  k = 3%nat \/ k = 1%nat -> in_range [d0; d1; d2; d3] i ->
  LossSpec.axis_sum [d0; d1; d2; d3] k p i <> 0 ->
  LossSpec.axis_sum [d0; d1; d2; d3] k
    (LossSpec.normalize [d0; d1; d2; d3] k p) i = 1.
Proof.
  intros Hk Hi Hne.
  apply in_range4 in Hi as (a & b & c & d & -> & _).
  unfold LossSpec.axis_sum at 1. unfold LossSpec.normalize.
  rewrite (rsum_ext _ _ (fun j =>
             p (set_at k j [a; b; c; d])
             / LossSpec.axis_sum [d0; d1; d2; d3] k p [a; b; c; d])).
  - rewrite rsum_div. fold (LossSpec.axis_sum [d0; d1; d2; d3] k p [a; b; c; d]).
    field. exact Hne.
  - intros j _. f_equal. unfold LossSpec.axis_sum.
    destruct Hk as [-> | ->]; reflexivity.
Qed.

End Normalization.

(** ** The claims *)

(** C2.  For [gt] and [pr] of shape (B, H, W, C), [iou_score] computes the
    intersection as the sum of [gt * pr] over the reduction axes (height
    and width per image, batch, height and width otherwise, after the
    optional thresholding of [pr]), the union as the sum of [gt + pr] over
    the same axes minus the intersection, the score
    (intersection + smooth) / (union + smooth), its mean over the batch if
    per image, and the mean of score times class weight over the classes. *)
Theorem iou_score_formula (B H W C : nat) (gt pr class_weights : tensor)
    (smooth : R) (per_image : bool) (threshold : option R) :
  shape gt = [B; H; W; C] -> shape pr = [B; H; W; C] ->
  weights_for C class_weights ->
  iou_score gt pr class_weights smooth per_image threshold =
  Some (Spec.iou_formula B H W C (at4 gt) (at4 pr) (weight_of class_weights)
          smooth per_image threshold).
Proof. apply iou_score_closed_form. Qed.

Lemma iou_score_formula_witness :
  let gt := ones [2; 1; 2; 1]%nat in
  let pr := full [2; 1; 2; 1]%nat (1 / 2) in
  iou_score gt pr (of_list [3]) SMOOTH true (Some (1 / 4)) =
  Some (Spec.iou_formula 2 1 2 1 (at4 gt) (at4 pr) (weight_of (of_list [3]))
          SMOOTH true (Some (1 / 4))).
Proof.
  apply (iou_score_formula 2 1 2 1); [reflexivity | reflexivity | right; reflexivity].
Defined.

(** C3.  For [gt] and [pr] of shape (B, H, W, C) and every [beta],
    [f_score] computes tp as the sum of [gt * pr] over the reduction axes
    (after the optional thresholding of [pr]), fp = sum(pr) - tp,
    fn = sum(gt) - tp, and returns the class-weighted mean (of the batch
    mean, per image) of
    ((1 + beta^2) tp + smooth) / ((1 + beta^2) tp + beta^2 fn + fp + smooth). *)
Theorem f_score_formula (B H W C : nat) (gt pr class_weights : tensor)
    (beta smooth : R) (per_image : bool) (threshold : option R) :
  shape gt = [B; H; W; C] -> shape pr = [B; H; W; C] ->
  weights_for C class_weights ->
  f_score gt pr class_weights beta smooth per_image threshold =
  Some (Spec.f_formula B H W C (at4 gt) (at4 pr) (weight_of class_weights)
          beta smooth per_image threshold).
Proof. apply f_score_closed_form. Qed.

Lemma f_score_formula_witness :
  let gt := ones [2; 1; 2; 1]%nat in
  let pr := full [2; 1; 2; 1]%nat (1 / 2) in
  f_score gt pr (scalar 1) 2 SMOOTH false None =
  Some (Spec.f_formula 2 1 2 1 (at4 gt) (at4 pr) (weight_of (scalar 1))
          2 SMOOTH false None).
Proof.
  apply (f_score_formula 2 1 2 1); [reflexivity | reflexivity | left; reflexivity].
Defined.

(** C5.  With a threshold [t], [iou_score] and [f_score] equal the same
    call without threshold on the binarized prediction, whose entries are
    1 where [pr] is strictly greater than [t] and 0 elsewhere. *)
Theorem threshold_binarizes (gt pr class_weights : tensor)
    (beta smooth t : R) (per_image : bool) :
  iou_score gt pr class_weights smooth per_image (Some t) =
  iou_score gt (binarized t pr) class_weights smooth per_image None
  /\ f_score gt pr class_weights beta smooth per_image (Some t) =
     f_score gt (binarized t pr) class_weights beta smooth per_image None.
Proof.
  assert (E : apply_threshold (Some t) (ok pr) =
              apply_threshold None (ok (binarized t pr))).
  { cbn [apply_threshold lift1 ok bind]. unfold tmap, binarized, ok.
    do 2 f_equal. apply functional_extensionality. intros i.
    unfold cast, greater. destruct (Rlt_dec t (elt pr i)); reflexivity. }
  unfold iou_score, f_score. rewrite E. split; reflexivity.
Qed.

(** C6.  For [gt] and [pr] both filled with 1s, without threshold and
    with class weight 1, [iou_score] is 1 and [f_score] is 1 for every
    [beta]: the smooth term is added to numerator and denominator alike. *)
Theorem scores_of_ones (B H W C : nat) (smooth : R) (per_image : bool) :
  (0 < B)%nat -> (0 < C)%nat -> 0 < smooth ->
  iou_score (ones [B; H; W; C]) (ones [B; H; W; C]) (scalar 1)
    smooth per_image None = Some 1
  /\ forall beta,
       f_score (ones [B; H; W; C]) (ones [B; H; W; C]) (scalar 1)
         beta smooth per_image None = Some 1.
Proof.
  intros HB HC Hs. split; [|intros beta].
  - rewrite (iou_score_closed_form B H W C) by (reflexivity || (left; reflexivity)).
    f_equal. unfold Spec.iou_formula.
    change (weight_of (scalar 1)) with (fun _ : nat => 1).
    etransitivity; [|exact (weighted_mean_ones B C per_image HB HC)].
    apply weighted_mean_ext. intros c _.
    apply over_batch_ext; [exact HB|]. intros b _.
    apply (iou_block_ones B H W smooth per_image b c Hs).
  - rewrite (f_score_closed_form B H W C) by (reflexivity || (left; reflexivity)).
    f_equal. unfold Spec.f_formula.
    change (weight_of (scalar 1)) with (fun _ : nat => 1).
    etransitivity; [|exact (weighted_mean_ones B C per_image HB HC)].
    apply weighted_mean_ext. intros c _.
    apply over_batch_ext; [exact HB|]. intros b _.
    apply (f_block_ones B H W beta smooth per_image b c Hs).
Qed.

Lemma scores_of_ones_witness :
  iou_score (ones [2; 3; 3; 2]%nat) (ones [2; 3; 3; 2]%nat) (scalar 1)
    SMOOTH true None = Some 1
  /\ forall beta,
       f_score (ones [2; 3; 3; 2]%nat) (ones [2; 3; 3; 2]%nat) (scalar 1)
         beta SMOOTH true None = Some 1.
Proof.
  apply (scores_of_ones 2 3 3 2 SMOOTH true); [lia | lia | unfold SMOOTH; lra].
Defined.

(** C7.  For disjoint [gt] and [pr] (their product is zero everywhere),
    without threshold and with class weight 1, [iou_score] is the mean
    (per image and per class) of smooth / (union + smooth); it is below
    any [eps > 0] as soon as every union is at least smooth / eps, so it
    tends to 0 as the union grows. *)
Theorem iou_score_disjoint (B H W C : nat) (gt pr : tensor) (smooth : R)
    (per_image : bool) :
  shape gt = [B; H; W; C] -> shape pr = [B; H; W; C] ->
  disjoint B H W C gt pr -> (0 < B)%nat -> (0 < C)%nat ->
  let union := union_of B H W per_image gt pr in
  let value := Spec.weighted_mean C (fun _ => 1)
                 (Spec.over_batch B per_image
                    (fun b c => smooth / (union b c + smooth))) in
  iou_score gt pr (scalar 1) smooth per_image None = Some value
  /\ forall eps, 0 < smooth -> 0 < eps ->
       (forall b c, (b < B)%nat -> (c < C)%nat -> smooth / eps <= union b c) ->
       0 <= value < eps.
Proof.
  intros Hgt Hpr Hd HB HC union value. split.
  - rewrite (iou_score_closed_form B H W C) by (assumption || (left; reflexivity)).
    f_equal. unfold Spec.iou_formula, value.
    change (weight_of (scalar 1)) with (fun _ : nat => 1).
    apply weighted_mean_ext. intros c Hc.
    apply over_batch_ext; [exact HB|]. intros b Hb.
    unfold Spec.iou_block, union, union_of. cbn [Spec.binarize].
    rewrite (reduce_ext B H W per_image _ (fun _ _ _ _ => 0) b c).
    + rewrite reduce_const. f_equal; ring.
    + intros b' h w Hb' Hh Hw. apply Hd; assumption.
    + intros _. exact Hb.
  - intros eps Hs He Hu.
    assert (Hblock : forall b c, (b < B)%nat -> (c < C)%nat ->
              0 <= smooth / (union b c + smooth) < eps).
    { intros b c Hb Hc. specialize (Hu b c Hb Hc).
      assert (Hq : 0 < smooth / eps) by (apply Rdiv_lt_0_compat; assumption).
      assert (Hden : 0 < union b c + smooth) by lra.
      split.
      - apply Rlt_le, Rdiv_lt_0_compat; assumption.
      - apply (Rmult_lt_reg_r (union b c + smooth)); [exact Hden|].
        replace (smooth / (union b c + smooth) * (union b c + smooth))
          with smooth by (field; lra).
        assert (smooth <= eps * union b c).
        { replace smooth with (eps * (smooth / eps)) at 1 by (field; lra).
          apply Rmult_le_compat_l; lra. }
        nra. }
    assert (Hclass : forall c, (c < C)%nat ->
              0 <= Spec.over_batch B per_image
                     (fun b c => smooth / (union b c + smooth)) c * 1 < eps).
    { intros c Hc. rewrite Rmult_1_r. unfold Spec.over_batch.
      destruct per_image.
      - split.
        + apply rsum_mean_lower; [exact HB|]. intros b Hb. apply Hblock; assumption.
        + apply rsum_mean_upper; [exact HB|]. intros b Hb. apply Hblock; assumption.
      - apply Hblock; assumption. }
    unfold value, Spec.weighted_mean. split.
    + apply rsum_mean_lower; [exact HC|]. intros c Hc. apply Hclass, Hc.
    + apply rsum_mean_upper; [exact HC|]. intros c Hc. apply Hclass, Hc.
Qed.

Lemma iou_score_disjoint_witness :
  let gt := full [1; 1; 2; 1]%nat 1 in
  let pr := full [1; 1; 2; 1]%nat 0 in
  let value := Spec.weighted_mean 1 (fun _ => 1)
                 (Spec.over_batch 1 true
                    (fun b c => SMOOTH / (union_of 1 1 2 true gt pr b c + SMOOTH))) in
  iou_score gt pr (scalar 1) SMOOTH true None = Some value
  /\ 0 <= value < 1 / 2.
Proof.
  intros gt pr value.
  assert (Hd : disjoint 1 1 2 1 gt pr).
  { intros b h w c _ _ _ _. cbv [at4 elt gt pr full]. lra. }
  destruct (iou_score_disjoint 1 1 2 1 gt pr SMOOTH true
              eq_refl eq_refl Hd Nat.lt_0_1 Nat.lt_0_1) as [E Hb].
  split; [exact E|].
  apply Hb.
  - unfold SMOOTH. lra.
  - lra.
  - intros b c _ _.
    cbv [union_of Spec.reduce rsum at4 elt gt pr full SMOOTH]. lra.
Defined.

(** C8.  For a weight vector [w] of length C, [iou_score] and [f_score]
    are the mean over the channels of score[c] * w[c], the scores being
    independent of the weights; so both are linear in [w], each channel's
    contribution being scaled by its own weight. *)
Theorem class_weights_linear (B H W C : nat) (gt pr : tensor)
    (beta smooth : R) (per_image : bool) (threshold : option R) :
  shape gt = [B; H; W; C] -> shape pr = [B; H; W; C] ->
  let iou := iou_score gt pr in
  let f := f_score gt pr in
  (forall w, length w = C ->
     iou (of_list w) smooth per_image threshold
     = Some (channel_mean C
               (iou_per_class B H W gt pr smooth per_image threshold) w)
     /\ f (of_list w) beta smooth per_image threshold
        = Some (channel_mean C
                  (f_per_class B H W gt pr beta smooth per_image threshold) w))
  /\ (forall a w b w' x x' y y', length w = C -> length w' = C ->
        iou (of_list w) smooth per_image threshold = Some x ->
        iou (of_list w') smooth per_image threshold = Some x' ->
        f (of_list w) beta smooth per_image threshold = Some y ->
        f (of_list w') beta smooth per_image threshold = Some y' ->
        iou (of_list (lincomb a w b w')) smooth per_image threshold
        = Some (a * x + b * x')
        /\ f (of_list (lincomb a w b w')) beta smooth per_image threshold
           = Some (a * y + b * y')).
Proof.
  intros Hgt Hpr iou f.
  assert (Hi : forall w, length w = C ->
            iou (of_list w) smooth per_image threshold
            = Some (channel_mean C
                      (iou_per_class B H W gt pr smooth per_image threshold) w)).
  { intros w Hw. unfold iou.
    rewrite (iou_score_closed_form B H W C)
      by (assumption || (right; simpl; congruence)).
    reflexivity. }
  assert (Hf : forall w, length w = C ->
            f (of_list w) beta smooth per_image threshold
            = Some (channel_mean C
                      (f_per_class B H W gt pr beta smooth per_image threshold) w)).
  { intros w Hw. unfold f.
    rewrite (f_score_closed_form B H W C)
      by (assumption || (right; simpl; congruence)).
    reflexivity. }
  split; [intros w Hw; split; [apply Hi | apply Hf]; exact Hw|].
  intros a w b w' x x' y y' Hw Hw' Ex Ex' Ey Ey'.
  rewrite (Hi w Hw) in Ex. rewrite (Hi w' Hw') in Ex'.
  rewrite (Hf w Hw) in Ey. rewrite (Hf w' Hw') in Ey'.
  injection Ex as <-. injection Ex' as <-. injection Ey as <-. injection Ey' as <-.
  assert (Hl : length (lincomb a w b w') = C).
  { unfold lincomb. rewrite length_map, length_combine, Hw, Hw'. apply Nat.min_id. }
  rewrite (Hi _ Hl), (Hf _ Hl). split; f_equal; apply channel_mean_lincomb; assumption.
Qed.

Lemma class_weights_linear_witness :
  let gt := ones [1; 1; 1; 2]%nat in
  let pr := full [1; 1; 1; 2]%nat (1 / 2) in
  let iou w := channel_mean 2 (iou_per_class 1 1 1 gt pr SMOOTH true None) w in
  let f w := channel_mean 2 (f_per_class 1 1 1 gt pr 1 SMOOTH true None) w in
  (iou_score gt pr (of_list [1; 3]) SMOOTH true None = Some (iou [1; 3])
   /\ f_score gt pr (of_list [1; 3]) 1 SMOOTH true None = Some (f [1; 3]))
  /\ (iou_score gt pr (of_list (lincomb 2 [1; 3] 5 [2; 0])) SMOOTH true None
      = Some (2 * iou [1; 3] + 5 * iou [2; 0])
      /\ f_score gt pr (of_list (lincomb 2 [1; 3] 5 [2; 0])) 1 SMOOTH true None
         = Some (2 * f [1; 3] + 5 * f [2; 0])).
Proof.
  intros gt pr iou f.
  destruct (class_weights_linear 1 1 1 2 gt pr 1 SMOOTH true None
              eq_refl eq_refl) as [Hm Hl].
  destruct (Hm [1; 3] eq_refl) as [Ei Ef].
  destruct (Hm [2; 0] eq_refl) as [Ei' Ef'].
  split; [split; [exact Ei | exact Ef]|].
  exact (Hl 2 [1; 3] 5 [2; 0] _ _ _ _ eq_refl eq_refl Ei Ei' Ef Ef').
Defined.

(** C10.  Without threshold, [iou_score] is symmetric in its two tensor
    arguments: intersection and union are. *)
Theorem iou_score_symmetric (B H W C : nat) (gt pr class_weights : tensor)
    (smooth : R) (per_image : bool) :
  shape gt = [B; H; W; C] -> shape pr = [B; H; W; C] ->
  weights_for C class_weights ->
  iou_score gt pr class_weights smooth per_image None =
  iou_score pr gt class_weights smooth per_image None.
Proof.
  intros Hgt Hpr Hcw.
  rewrite !(iou_score_closed_form B H W C) by assumption.
  f_equal. unfold Spec.iou_formula, Spec.iou_block. cbn [Spec.binarize].
  replace (fun b h w c => at4 pr b h w c * at4 gt b h w c)
    with (fun b h w c => at4 gt b h w c * at4 pr b h w c)
    by (do 4 (apply functional_extensionality; intro); apply Rmult_comm).
  replace (fun b h w c => at4 pr b h w c + at4 gt b h w c)
    with (fun b h w c => at4 gt b h w c + at4 pr b h w c)
    by (do 4 (apply functional_extensionality; intro); apply Rplus_comm).
  reflexivity.
Qed.

Lemma iou_score_symmetric_witness :
  let gt := ones [1; 2; 2; 1]%nat in
  let pr := full [1; 2; 2; 1]%nat (1 / 3) in
  iou_score gt pr (scalar 1) SMOOTH true None =
  iou_score pr gt (scalar 1) SMOOTH true None.
Proof.
  apply (iou_score_symmetric 1 2 2 1);
    [reflexivity | reflexivity | left; reflexivity].
Defined.

Section BinaryGroundTruth.

Variable eps : R.
Variables gamma alpha : R.
Hypothesis eps_pos : 0 < eps.
Hypothesis eps_half : eps <= 1 / 2.
Hypothesis alpha_nonneg : 0 <= alpha.
Hypothesis gamma_nonneg : 0 <= gamma.






End BinaryGroundTruth.


Section SoftGroundTruth.


Lemma pow_zero (x : R) : pow x 0 = 1.
Proof. unfold pow, Rpower. rewrite Rmult_0_l. apply exp_0. Qed.




End SoftGroundTruth.

(** For every ground truth with entries in [0, 1], [focal_loss gt gt]
    lies between 0, below which no prediction brings the loss, and
    alpha * (2 * mean(gt * (1 - gt)) + 4 * epsilon). *)
Lemma focal_loss_self_bounds (backend : config) (gt : tensor)
    (gamma alpha : R) :
  let eps := epsilon backend in
  let s := shape gt in
  0 < eps <= 1 / 2 -> 0 <= alpha -> 0 <= gamma -> (0 < size s)%nat ->
  (forall i, in_range s i -> 0 <= elt gt i <= 1) ->
  exists v,
    focal_loss backend gt gt gamma alpha = Some v
    /\ 0 <= v <= alpha * (2 * LossSpec.mean_all s
                                (fun i => elt gt i * (1 - elt gt i)) + 4 * eps)
    /\ (forall pr w, shape pr = s ->
          focal_loss backend gt pr gamma alpha = Some w -> 0 <= w).
Proof.
  intros eps s [He1 He2] Ha Hg Hs Hr.
  eexists. split; [apply focal_loss_closed_form; reflexivity|].
  fold eps s. split; [split|].
  - rewrite <- (mean_all_const s 0 Hs). apply mean_all_le; [exact Hs|].
    intros i _. apply pair_loss_nonneg; assumption.
  - replace (alpha * (2 * LossSpec.mean_all s (fun i => elt gt i * (1 - elt gt i))
                      + 4 * eps))
      with ((2 * alpha) * LossSpec.mean_all s (fun i => elt gt i * (1 - elt gt i))
            + 4 * alpha * eps) by ring.
    rewrite <- mean_all_affine by exact Hs.
    apply mean_all_le; [exact Hs|]. intros i Hi.
    apply pair_loss_self; auto.
  - intros pr w Hpr E.
    rewrite (focal_loss_closed_form backend gt pr gamma alpha Hpr) in E.
    injection E as <-. fold eps s.
    rewrite <- (mean_all_const s 0 Hs). apply mean_all_le; [exact Hs|].
    intros i _. apply pair_loss_nonneg; assumption.
Qed.




(** C4.  [categorical_crossentropy] first divides [pr] by its sum along
    the channel axis, so that the class probabilities of each sample sum
    to 1, then clips it to [epsilon, 1 - epsilon], so that the logarithm
    is never taken at 0, and returns minus the mean of
    gt * log(pr) * class_weights. *)
Theorem categorical_crossentropy_formula (backend : config)
    (gt pr class_weights : tensor) (d0 d1 d2 d3 : nat) :
  let eps := epsilon backend in
  let s := [d0; d1; d2; d3] in
  let k := channel_axis backend in
  let scaled := LossSpec.normalize s k (elt pr) in
  shape gt = s -> shape pr = s -> weights_for d3 class_weights ->
  categorical_crossentropy backend gt pr class_weights
  = Some (- LossSpec.mean_all s (fun i =>
            elt gt i * log (clip eps (1 - eps) (scaled i))
            * weight_of class_weights (last i 0%nat)))
  /\ (forall i, in_range s i -> LossSpec.axis_sum s k (elt pr) i <> 0 ->
        LossSpec.axis_sum s k scaled i = 1)
  /\ (0 < eps < 1 -> forall x, 0 < clip eps (1 - eps) x).
Proof.
  intros eps s k scaled Hgt Hpr Hcw. split; [|split].
  - apply categorical_crossentropy_closed_form; assumption.
  - intros i Hi Hne. apply normalize_sums_to_one; [|exact Hi|exact Hne].
    unfold k, channel_axis. destruct (image_data_format backend); auto.
  - intros He x. unfold clip, Rmin, Rmax.
    destruct (Rle_dec x eps); destruct (Rle_dec _ (1 - eps)); lra.
Qed.

Lemma categorical_crossentropy_formula_witness :
  let backend := mkConfig (1 / 10000000) channels_last in
  let gt := ones [1; 1; 1; 2]%nat in
  let pr := full [1; 1; 1; 2]%nat (1 / 4) in
  let s := [1; 1; 1; 2]%nat in
  let scaled := LossSpec.normalize s 3 (elt pr) in
  categorical_crossentropy backend gt pr (scalar 1)
  = Some (- LossSpec.mean_all s (fun i =>
            elt gt i * log (clip (1 / 10000000) (1 - 1 / 10000000) (scaled i))
            * weight_of (scalar 1) (last i 0%nat)))
  /\ LossSpec.axis_sum s 3 scaled [0; 0; 0; 1]%nat = 1
  /\ 0 < clip (1 / 10000000) (1 - 1 / 10000000) 0.
Proof.
  intros backend gt pr s scaled.
  destruct (categorical_crossentropy_formula backend gt pr (scalar 1) 1 1 1 2
              eq_refl eq_refl (or_introl eq_refl)) as (E & Hn & Hc).
  split; [exact E|]. split.
  - apply Hn.
    + repeat constructor.
    + cbv [LossSpec.axis_sum channel_axis image_data_format backend nth rsum
           elt pr full set_at firstn skipn app].
      lra.
  - apply Hc. cbv [epsilon backend]. lra.
Defined.

(** C1.  On the 1x1x1x1 ground truth and prediction of value 1/2, with
    gamma = 2 and alpha = 1/4, [categorical_focal_loss] returns
    ln 2 / 64, the value of the formula with the ground truth squared,
    whereas minus the mean of alpha * gt * (1 - pr)^gamma * log(pr) is
    ln 2 / 32. *)
Theorem categorical_focal_loss_squares_gt :
  let backend := mkConfig (1 / 10000000) channels_last in
  let t := full [1; 1; 1; 1]%nat (1 / 2) in
  categorical_focal_loss backend t t 2 (1 / 4) = Some (ln 2 / 64)
  /\ LossSpec.focal_formula (epsilon backend) (shape t) (elt t) (elt t)
       2 (1 / 4) = ln 2 / 32
  /\ ln 2 / 64 <> ln 2 / 32.
Proof.
  intros backend t.
  assert (Hc : LossSpec.clipped (epsilon backend) (1 / 2) = 1 / 2).
  { unfold LossSpec.clipped, clip, Rmin, Rmax. cbv [epsilon backend].
    destruct (Rle_dec (1 / 2) (1 / 10000000)); [exfalso; lra|].
    destruct (Rle_dec (1 / 2) (1 - 1 / 10000000)); lra. }
  assert (Hp : pow (1 - 1 / 2) 2 = 1 / 4).
  { unfold pow. transitivity (Rpower (1 / 2) (INR 2)).
    - f_equal; simpl; lra.
    - rewrite Rpower_pow by lra. simpl. lra. }
  assert (Hl : log (1 / 2) = - ln 2).
  { unfold log. replace (1 / 2) with (/ 2) by lra. apply ln_Rinv. lra. }
  split; [|split].
  - rewrite categorical_focal_loss_closed_form by reflexivity. f_equal.
    unfold LossSpec.focal_squared_formula, LossSpec.mean_all.
    cbv [shape elt t full sum_all rsum size fold_right Nat.mul Nat.add INR].
    rewrite Hc, Hp, Hl. field.
  - unfold LossSpec.focal_formula, LossSpec.mean_all.
    cbv [shape elt t full sum_all rsum size fold_right Nat.mul Nat.add INR].
    rewrite Hc, Hp, Hl. field.
  - pose proof ln_lt_2. lra.
Qed.

(** ** Further properties of the scores *)

Section ScoreBounds.

Variables B H W C : nat.

Lemma reduce_le (per_image : bool) (x y : Spec.field) (b c : nat) :
  (forall b h w, (b < B)%nat -> (h < H)%nat -> (w < W)%nat ->
                 x b h w c <= y b h w c) ->
  (per_image = true -> (b < B)%nat) ->
  Spec.reduce B H W per_image x b c <= Spec.reduce B H W per_image y b c.
Proof.
  intros E Hb. unfold Spec.reduce. destruct per_image.
  - apply rsum_le. intros h Hh. apply rsum_le. intros w Hw. apply E; auto.
  - apply rsum_le. intros b' Hb'. apply rsum_le. intros h Hh.
    apply rsum_le. intros w Hw. apply E; auto.
Qed.

Lemma reduce_plus (per_image : bool) (x y : Spec.field) (b c : nat) :
  Spec.reduce B H W per_image (fun b h w c => x b h w c + y b h w c) b c
  = Spec.reduce B H W per_image x b c + Spec.reduce B H W per_image y b c.
Proof.
  unfold Spec.reduce. destruct per_image.
  - rewrite <- rsum_plus. apply rsum_ext. intros h _. apply rsum_plus.
  - rewrite <- rsum_plus. apply rsum_ext. intros b' _.
    rewrite <- rsum_plus. apply rsum_ext. intros h _. apply rsum_plus.
Qed.

Lemma reduce_nonneg (per_image : bool) (x : Spec.field) (b c : nat) :
  (forall b h w, (b < B)%nat -> (h < H)%nat -> (w < W)%nat -> 0 <= x b h w c) ->
  (per_image = true -> (b < B)%nat) ->
  0 <= Spec.reduce B H W per_image x b c.
Proof.
  intros E Hb.
  replace 0 with (Spec.reduce B H W per_image (fun _ _ _ _ => 0) b c)
    by (rewrite reduce_const; ring).
  apply reduce_le; assumption.
Qed.

Lemma rsum_mean_le (n : nat) (f : nat -> R) (hi : R) :
  (0 < n)%nat -> (forall j, (j < n)%nat -> f j <= hi) -> rsum n f / INR n <= hi.
Proof.
  intros Hn E.
  assert (Hpos : 0 < INR n) by (apply lt_0_INR; exact Hn).
  assert (Hs : rsum n f <= INR n * hi).
  { rewrite <- rsum_const. apply rsum_le. exact E. }
  apply (Rmult_le_reg_l (INR n)); [exact Hpos|].
  replace (INR n * (rsum n f / INR n)) with (rsum n f) by (field; lra).
  exact Hs.
Qed.

Lemma rsum_mean_mono (n : nat) (f g : nat -> R) :
  (0 < n)%nat -> (forall j, (j < n)%nat -> f j <= g j) ->
  rsum n f / INR n <= rsum n g / INR n.
Proof.
  intros Hn E. unfold Rdiv. apply Rmult_le_compat_r; [|apply rsum_le, E].
  apply Rlt_le, Rinv_0_lt_compat, lt_0_INR, Hn.
Qed.

Lemma over_batch_le (per_image : bool) (s s' : nat -> nat -> R) (c : nat) :
  (0 < B)%nat -> (forall b, (b < B)%nat -> s b c <= s' b c) ->
  Spec.over_batch B per_image s c <= Spec.over_batch B per_image s' c.
Proof.
  intros HB E. unfold Spec.over_batch. destruct per_image.
  - apply rsum_mean_mono; assumption.
  - apply E, HB.
Qed.

Lemma over_batch_within (per_image : bool) (s : nat -> nat -> R) (c : nat)
    (lo hi : R) :
  (0 < B)%nat -> (forall b, (b < B)%nat -> lo <= s b c <= hi) ->
  lo <= Spec.over_batch B per_image s c <= hi.
Proof.
  intros HB E. unfold Spec.over_batch. destruct per_image.
  - split; [apply rsum_mean_lower | apply rsum_mean_le]; try exact HB;
      intros b Hb; apply E, Hb.
  - apply E, HB.
Qed.

Lemma weighted_mean_le (w s s' : nat -> R) :
  (0 < C)%nat -> (forall c, (c < C)%nat -> 0 <= w c) ->
  (forall c, (c < C)%nat -> s c <= s' c) ->
  Spec.weighted_mean C w s <= Spec.weighted_mean C w s'.
Proof.
  intros HC Hw E. unfold Spec.weighted_mean. apply rsum_mean_mono; [exact HC|].
  intros c Hc. apply Rmult_le_compat_r; [apply Hw | apply E]; exact Hc.
Qed.

Lemma weighted_mean_within (w s : nat -> R) :
  (0 < C)%nat -> (forall c, (c < C)%nat -> 0 <= w c <= 1) ->
  (forall c, (c < C)%nat -> 0 <= s c <= 1) ->
  0 <= Spec.weighted_mean C w s <= 1.
Proof.
  intros HC Hw Hs. unfold Spec.weighted_mean.
  split; [apply rsum_mean_lower | apply rsum_mean_le]; try exact HC;
    intros c Hc; specialize (Hw c Hc); specialize (Hs c Hc); nra.
Qed.

(** The three sums of a block, for entries in [0, 1]. *)
Lemma block_sums (per_image : bool) (g p : Spec.field) (b c : nat) :
  (forall b h w, (b < B)%nat -> (h < H)%nat -> (w < W)%nat ->
                 0 <= g b h w c <= 1 /\ 0 <= p b h w c <= 1) ->
  (per_image = true -> (b < B)%nat) ->
  let tp := Spec.reduce B H W per_image (fun b h w c => g b h w c * p b h w c) b c in
  0 <= tp /\ tp <= Spec.reduce B H W per_image g b c
  /\ tp <= Spec.reduce B H W per_image p b c.
Proof.
  intros E Hb tp. unfold tp. repeat split.
  - apply reduce_nonneg; [|exact Hb]. intros b' h w Hb' Hh Hw.
    destruct (E b' h w Hb' Hh Hw). nra.
  - apply reduce_le; [|exact Hb]. intros b' h w Hb' Hh Hw.
    destruct (E b' h w Hb' Hh Hw). nra.
  - apply reduce_le; [|exact Hb]. intros b' h w Hb' Hh Hw.
    destruct (E b' h w Hb' Hh Hw). nra.
Qed.

Lemma binarize_unit (threshold : option R) (x : R) :
  0 <= x <= 1 -> 0 <= Spec.binarize threshold x <= 1.
Proof.
  intros Hx. destruct threshold as [t|]; simpl; [|exact Hx].
  destruct (Rlt_dec t x); lra.
Qed.

Lemma iou_block_unit (per_image : bool) (g p : Spec.field) (smooth : R)
    (b c : nat) :
  (forall b h w, (b < B)%nat -> (h < H)%nat -> (w < W)%nat ->
                 0 <= g b h w c <= 1 /\ 0 <= p b h w c <= 1) ->
  (per_image = true -> (b < B)%nat) -> 0 < smooth ->
  0 <= Spec.iou_block B H W g p smooth per_image b c <= 1.
Proof.
  intros E Hb Hs. destruct (block_sums per_image g p b c E Hb) as (H0 & Hg & Hp).
  unfold Spec.iou_block. rewrite reduce_plus.
  set (tp := Spec.reduce B H W per_image (fun b h w c => g b h w c * p b h w c) b c) in *.
  set (sg := Spec.reduce B H W per_image g b c) in *.
  set (sp := Spec.reduce B H W per_image p b c) in *.
  assert (Hden : 0 < sg + sp - tp + smooth) by lra.
  split.
  - apply Rlt_le, Rdiv_lt_0_compat; lra.
  - apply (Rmult_le_reg_r (sg + sp - tp + smooth)); [exact Hden|].
    replace ((tp + smooth) / (sg + sp - tp + smooth) * (sg + sp - tp + smooth))
      with (tp + smooth) by (field; lra).
    lra.
Qed.

Lemma f_block_unit (per_image : bool) (g p : Spec.field) (beta smooth : R)
    (b c : nat) :
  (forall b h w, (b < B)%nat -> (h < H)%nat -> (w < W)%nat ->
                 0 <= g b h w c <= 1 /\ 0 <= p b h w c <= 1) ->
  (per_image = true -> (b < B)%nat) -> 0 < smooth ->
  0 <= Spec.f_block B H W g p beta smooth per_image b c <= 1.
Proof.
  intros E Hb Hs. destruct (block_sums per_image g p b c E Hb) as (H0 & Hg & Hp).
  unfold Spec.f_block.
  set (tp := Spec.reduce B H W per_image (fun b h w c => g b h w c * p b h w c) b c) in *.
  set (sg := Spec.reduce B H W per_image g b c) in *.
  set (sp := Spec.reduce B H W per_image p b c) in *.
  pose proof (pow2_ge_0 beta) as Hbeta.
  assert (Hnum : 0 < (1 + beta ^ 2) * tp + smooth) by nra.
  assert (Hfn : 0 <= beta ^ 2 * (sg - tp)) by (apply Rmult_le_pos; lra).
  assert (Hden : 0 < (1 + beta ^ 2) * tp + beta ^ 2 * (sg - tp) + (sp - tp) + smooth)
    by lra.
  split.
  - apply Rlt_le, Rdiv_lt_0_compat; lra.
  - apply (Rmult_le_reg_r
             ((1 + beta ^ 2) * tp + beta ^ 2 * (sg - tp) + (sp - tp) + smooth));
      [exact Hden|].
    replace (((1 + beta ^ 2) * tp + smooth)
             / ((1 + beta ^ 2) * tp + beta ^ 2 * (sg - tp) + (sp - tp) + smooth)
             * ((1 + beta ^ 2) * tp + beta ^ 2 * (sg - tp) + (sp - tp) + smooth))
      with ((1 + beta ^ 2) * tp + smooth) by (field; lra).
    lra.
Qed.

(** With beta = 1 the score of a block is the Dice coefficient. *)
Lemma f_block_dice (per_image : bool) (g p : Spec.field) (smooth : R)
    (b c : nat) :
  Spec.f_block B H W g p 1 smooth per_image b c
  = (2 * Spec.reduce B H W per_image (fun b h w c => g b h w c * p b h w c) b c
     + smooth)
    / (Spec.reduce B H W per_image g b c + Spec.reduce B H W per_image p b c
       + smooth).
Proof. unfold Spec.f_block. f_equal; ring. Qed.

Lemma dice_above_iou (per_image : bool) (g p : Spec.field) (smooth : R)
    (b c : nat) :
  (forall b h w, (b < B)%nat -> (h < H)%nat -> (w < W)%nat ->
                 0 <= g b h w c <= 1 /\ 0 <= p b h w c <= 1) ->
  (per_image = true -> (b < B)%nat) -> 0 < smooth ->
  Spec.iou_block B H W g p smooth per_image b c
  <= Spec.f_block B H W g p 1 smooth per_image b c.
Proof.
  intros E Hb Hs. destruct (block_sums per_image g p b c E Hb) as (H0 & Hg & Hp).
  rewrite f_block_dice. unfold Spec.iou_block. rewrite reduce_plus.
  set (tp := Spec.reduce B H W per_image (fun b h w c => g b h w c * p b h w c) b c) in *.
  set (sg := Spec.reduce B H W per_image g b c) in *.
  set (sp := Spec.reduce B H W per_image p b c) in *.
  assert (H1 : 0 < sg + sp - tp + smooth) by lra.
  assert (H2 : 0 < sg + sp + smooth) by lra.
  apply (Rmult_le_reg_r ((sg + sp - tp + smooth) * (sg + sp + smooth)));
    [apply Rmult_lt_0_compat; assumption|].
  replace ((tp + smooth) / (sg + sp - tp + smooth)
           * ((sg + sp - tp + smooth) * (sg + sp + smooth)))
    with ((tp + smooth) * (sg + sp + smooth)) by (field; lra).
  replace ((2 * tp + smooth) / (sg + sp + smooth)
           * ((sg + sp - tp + smooth) * (sg + sp + smooth)))
    with ((2 * tp + smooth) * (sg + sp - tp + smooth)) by (field; lra).
  nra.
Qed.

End ScoreBounds.

Lemma reduce_ext_all (B H W : nat) (per_image : bool) (x y : Spec.field)
    (b c : nat) :
  (forall b h w c, x b h w c = y b h w c) ->
  Spec.reduce B H W per_image x b c = Spec.reduce B H W per_image y b c.
Proof.
  intros E. unfold Spec.reduce. destruct per_image;
    repeat (apply rsum_ext; intros ? _); apply E.
Qed.

Section ScoreTheorems.

Variables B H W C : nat.
Variables gt pr : tensor.
Hypothesis gt_shape : shape gt = [B; H; W; C].
Hypothesis pr_shape : shape pr = [B; H; W; C].

Lemma unit_entries (threshold : option R) (c : nat) :
  in_unit B H W C gt -> in_unit B H W C pr -> (c < C)%nat ->
  forall b h w, (b < B)%nat -> (h < H)%nat -> (w < W)%nat ->
    0 <= at4 gt b h w c <= 1
    /\ 0 <= Spec.binarize threshold (at4 pr b h w c) <= 1.
Proof.
  intros Hg Hp Hc b h w Hb Hh Hw. split; [apply Hg; assumption|].
  apply binarize_unit, Hp; assumption.
Qed.

(** X1.  For ground truth and prediction with entries in [0, 1], class
    weights in [0, 1] and a positive smooth, [iou_score] returns a value
    in [0, 1], with or without threshold, per image or not. *)
Theorem iou_score_in_unit_interval (class_weights : tensor) (smooth : R)
    (per_image : bool) (threshold : option R) :
  weights_for C class_weights -> weights_unit C class_weights ->
  in_unit B H W C gt -> in_unit B H W C pr ->
  (0 < B)%nat -> (0 < C)%nat -> 0 < smooth ->
  exists v, iou_score gt pr class_weights smooth per_image threshold = Some v
            /\ 0 <= v <= 1.
Proof.
  intros Hcw Hw Hg Hp HB HC Hs. eexists.
  split; [apply (iou_score_closed_form B H W C); assumption|].
  unfold Spec.iou_formula. apply weighted_mean_within; [exact HC | exact Hw|].
  intros c Hc. apply over_batch_within; [exact HB|]. intros b Hb.
  apply iou_block_unit; [|intros _; exact Hb|exact Hs].
  apply unit_entries; assumption.
Qed.

(** X2.  Under the same conditions [f_score] returns a value in [0, 1],
    for every beta. *)
Theorem f_score_in_unit_interval (class_weights : tensor) (beta smooth : R)
    (per_image : bool) (threshold : option R) :
  weights_for C class_weights -> weights_unit C class_weights ->
  in_unit B H W C gt -> in_unit B H W C pr ->
  (0 < B)%nat -> (0 < C)%nat -> 0 < smooth ->
  exists v, f_score gt pr class_weights beta smooth per_image threshold = Some v
            /\ 0 <= v <= 1.
Proof.
  intros Hcw Hw Hg Hp HB HC Hs. eexists.
  split; [apply (f_score_closed_form B H W C); assumption|].
  unfold Spec.f_formula. apply weighted_mean_within; [exact HC | exact Hw|].
  intros c Hc. apply over_batch_within; [exact HB|]. intros b Hb.
  apply f_block_unit; [|intros _; exact Hb|exact Hs].
  apply unit_entries; assumption.
Qed.

(** X3.  The F1 (Dice) score is never below the IoU score of the same
    tensors: entries in [0, 1], non-negative class weights, positive
    smooth, the same per-image flag and threshold. *)
Theorem dice_at_least_iou (class_weights : tensor) (smooth : R)
    (per_image : bool) (threshold : option R) :
  weights_for C class_weights -> weights_nonneg C class_weights ->
  in_unit B H W C gt -> in_unit B H W C pr ->
  (0 < B)%nat -> (0 < C)%nat -> 0 < smooth ->
  exists i d,
    iou_score gt pr class_weights smooth per_image threshold = Some i
    /\ f_score gt pr class_weights 1 smooth per_image threshold = Some d
    /\ i <= d.
Proof.
  intros Hcw Hw Hg Hp HB HC Hs. do 2 eexists.
  split; [apply (iou_score_closed_form B H W C); assumption|].
  split; [apply (f_score_closed_form B H W C); assumption|].
  unfold Spec.iou_formula, Spec.f_formula.
  apply weighted_mean_le; [exact HC | intros c Hc; apply Hw, Hc |].
  intros c Hc. apply over_batch_le; [exact HB|]. intros b Hb.
  apply dice_above_iou; [|intros _; exact Hb|exact Hs].
  apply unit_entries; assumption.
Qed.

(** X4.  With beta = 1 and no threshold, [f_score] is symmetric in ground
    truth and prediction. *)
Theorem dice_symmetric (class_weights : tensor) (smooth : R) (per_image : bool) :
  weights_for C class_weights ->
  f_score gt pr class_weights 1 smooth per_image None
  = f_score pr gt class_weights 1 smooth per_image None.
Proof.
  intros Hcw. rewrite !(f_score_closed_form B H W C) by assumption.
  f_equal. unfold Spec.f_formula, Spec.weighted_mean. cbn [Spec.binarize].
  f_equal. apply rsum_ext. intros c _. f_equal.
  unfold Spec.over_batch.
  assert (E : forall b, Spec.f_block B H W (at4 gt) (fun b h w c => at4 pr b h w c)
                          1 smooth per_image b c
                        = Spec.f_block B H W (at4 pr) (fun b h w c => at4 gt b h w c)
                            1 smooth per_image b c).
  { intros b. rewrite !f_block_dice.
    change (fun b h w c => at4 pr b h w c) with (at4 pr).
    change (fun b h w c => at4 gt b h w c) with (at4 gt).
    rewrite (reduce_ext_all B H W per_image
               (fun b h w c => at4 pr b h w c * at4 gt b h w c)
               (fun b h w c => at4 gt b h w c * at4 pr b h w c))
      by (intros; apply Rmult_comm).
    f_equal. ring. }
  destruct per_image; [|apply E].
  f_equal. apply rsum_ext. intros b _. apply E.
Qed.

(** X5.  On a batch of one image the per-image flag makes no difference. *)
Theorem batch_of_one (class_weights : tensor) (beta smooth : R)
    (threshold : option R) :
  B = 1%nat -> weights_for C class_weights ->
  iou_score gt pr class_weights smooth true threshold
  = iou_score gt pr class_weights smooth false threshold
  /\ f_score gt pr class_weights beta smooth true threshold
     = f_score gt pr class_weights beta smooth false threshold.
Proof.
  intros HB Hcw.
  rewrite !(iou_score_closed_form B H W C), !(f_score_closed_form B H W C)
    by assumption.
  unfold Spec.iou_formula, Spec.f_formula, Spec.weighted_mean, Spec.over_batch,
    Spec.iou_block, Spec.f_block, Spec.reduce.
  rewrite HB. cbn [rsum INR]. split; f_equal; f_equal; apply rsum_ext; intros c _;
    f_equal; rewrite !Rplus_0_l; unfold Rdiv; rewrite Rinv_1, Rmult_1_r; reflexivity.
Qed.

End ScoreTheorems.

Section MoreScoreTheorems.

Variables B H W C : nat.
Variables gt pr : tensor.
Hypothesis gt_shape : shape gt = [B; H; W; C].
Hypothesis pr_shape : shape pr = [B; H; W; C].

Lemma over_batch_ext_flag (per_image : bool) (s s' : nat -> nat -> R) (c : nat) :
  (forall b, (per_image = true -> (b < B)%nat) -> s b c = s' b c) ->
  Spec.over_batch B per_image s c = Spec.over_batch B per_image s' c.
Proof.
  intros E. unfold Spec.over_batch. destruct per_image.
  - f_equal. apply rsum_ext. intros b Hb. apply E. intros _. exact Hb.
  - apply E. discriminate.
Qed.

Lemma binarize_zero (threshold : option R) :
  keeps_zero threshold -> Spec.binarize threshold 0 = 0.
Proof.
  destruct threshold as [t|]; simpl; [|reflexivity].
  intros Ht. destruct (Rlt_dec t 0); [lra | reflexivity].
Qed.

Lemma binarize_binary (t x : R) :
  0 <= t < 1 -> x = 0 \/ x = 1 -> Spec.binarize (Some t) x = x.
Proof.
  intros Ht [-> | ->]; simpl.
  - destruct (Rlt_dec t 0); [lra | reflexivity].
  - destruct (Rlt_dec t 1); [reflexivity | lra].
Qed.

(** X6.  Two empty masks count as a perfect match: when ground truth and
    prediction are 0 everywhere, [iou_score] and [f_score] are 1 for
    every non-zero smooth. *)
Theorem empty_masks_score_one (beta smooth : R) (per_image : bool)
    (threshold : option R) :
  empty_mask B H W C gt -> empty_mask B H W C pr -> keeps_zero threshold ->
  (0 < B)%nat -> (0 < C)%nat -> smooth <> 0 ->
  iou_score gt pr (scalar 1) smooth per_image threshold = Some 1
  /\ f_score gt pr (scalar 1) beta smooth per_image threshold = Some 1.
Proof.
  intros Hg Hp Ht HB HC Hs.
  assert (Z : forall (x : Spec.field) b c,
            (forall b h w, (b < B)%nat -> (h < H)%nat -> (w < W)%nat ->
                           x b h w c = 0) ->
            (per_image = true -> (b < B)%nat) ->
            Spec.reduce B H W per_image x b c = 0).
  { intros x b c E Hb.
    rewrite (reduce_ext B H W per_image x (fun _ _ _ _ => 0) b c E Hb).
    rewrite reduce_const. ring. }
  rewrite (iou_score_closed_form B H W C), (f_score_closed_form B H W C)
    by (assumption || (left; reflexivity)).
  change (weight_of (scalar 1)) with (fun _ : nat => 1).
  unfold Spec.iou_formula, Spec.f_formula.
  split; f_equal;
    (etransitivity; [|exact (weighted_mean_ones B C per_image HB HC)]);
    apply weighted_mean_ext; intros c Hc;
    apply over_batch_ext_flag; intros b Hb.
  - unfold Spec.iou_block. rewrite !Z; [field; exact Hs | | | |]; try exact Hb;
      intros b' h w Hb' Hh Hw;
      rewrite (Hg b' h w c Hb' Hh Hw Hc), (Hp b' h w c Hb' Hh Hw Hc),
        (binarize_zero threshold Ht); ring.
  - unfold Spec.f_block. rewrite !Z; [field; exact Hs | | | | | |]; try exact Hb;
      intros b' h w Hb' Hh Hw;
      rewrite ?(Hg b' h w c Hb' Hh Hw Hc), ?(Hp b' h w c Hb' Hh Hw Hc),
        ?(binarize_zero threshold Ht); ring.
Qed.

(** X7.  A number given as class weight scales the score: with weight [k]
    the result is [k] times the result with weight 1. *)
Theorem scalar_weight_scales (k beta smooth : R) (per_image : bool)
    (threshold : option R) :
  (exists x, iou_score gt pr (scalar 1) smooth per_image threshold = Some x
             /\ iou_score gt pr (scalar k) smooth per_image threshold
                = Some (k * x))
  /\ (exists y, f_score gt pr (scalar 1) beta smooth per_image threshold = Some y
                /\ f_score gt pr (scalar k) beta smooth per_image threshold
                   = Some (k * y)).
Proof.
  assert (E : forall s : nat -> R,
            Spec.weighted_mean C (fun _ => k) s
            = k * Spec.weighted_mean C (fun _ => 1) s).
  { intros s. unfold Spec.weighted_mean.
    rewrite (rsum_ext C _ (fun c => k * (s c * 1))) by (intros; ring).
    rewrite rsum_scale. unfold Rdiv. ring. }
  split; eexists; split.
  - apply (iou_score_closed_form B H W C); auto. left. reflexivity.
  - rewrite (iou_score_closed_form B H W C) by (auto; left; reflexivity).
    f_equal. apply E.
  - apply (f_score_closed_form B H W C); auto. left. reflexivity.
  - rewrite (f_score_closed_form B H W C) by (auto; left; reflexivity).
    f_equal. apply E.
Qed.

(** X8.  A number given as class weight is the same as the list that
    repeats it for each of the C channels. *)
Theorem scalar_weight_is_constant_list (k beta smooth : R) (per_image : bool)
    (threshold : option R) :
  iou_score gt pr (scalar k) smooth per_image threshold
  = iou_score gt pr (of_list (repeat k C)) smooth per_image threshold
  /\ f_score gt pr (scalar k) beta smooth per_image threshold
     = f_score gt pr (of_list (repeat k C)) beta smooth per_image threshold.
Proof.
  assert (Hl : weights_for C (of_list (repeat k C))).
  { right. simpl. rewrite repeat_length. reflexivity. }
  assert (Hk : weights_for C (scalar k)) by (left; reflexivity).
  rewrite !(iou_score_closed_form B H W C), !(f_score_closed_form B H W C)
    by assumption.
  unfold Spec.iou_formula, Spec.f_formula, Spec.weighted_mean.
  split; f_equal; f_equal; apply rsum_ext; intros c Hc; f_equal;
    cbv [weight_of scalar of_list shape elt hd];
    symmetry; apply nth_repeat_lt; exact Hc.
Qed.

(** X9.  On a prediction whose entries are all 0 or 1, a threshold in
    [0, 1) changes nothing. *)
Theorem threshold_keeps_binary (class_weights : tensor) (beta smooth t : R)
    (per_image : bool) :
  weights_for C class_weights -> binary_mask B H W C pr -> 0 <= t < 1 ->
  iou_score gt pr class_weights smooth per_image (Some t)
  = iou_score gt pr class_weights smooth per_image None
  /\ f_score gt pr class_weights beta smooth per_image (Some t)
     = f_score gt pr class_weights beta smooth per_image None.
Proof.
  intros Hcw Hb Ht.
  rewrite !(iou_score_closed_form B H W C), !(f_score_closed_form B H W C)
    by assumption.
  unfold Spec.iou_formula, Spec.f_formula.
  split; f_equal; apply weighted_mean_ext; intros c Hc;
    apply over_batch_ext_flag; intros b Hbb.
  - unfold Spec.iou_block.
    rewrite (reduce_ext B H W per_image
               (fun b h w c => at4 gt b h w c * Spec.binarize (Some t) (at4 pr b h w c))
               (fun b h w c => at4 gt b h w c * Spec.binarize None (at4 pr b h w c))
               b c), 
            (reduce_ext B H W per_image
               (fun b h w c => at4 gt b h w c + Spec.binarize (Some t) (at4 pr b h w c))
               (fun b h w c => at4 gt b h w c + Spec.binarize None (at4 pr b h w c))
               b c);
      try reflexivity; try exact Hbb;
      intros b' h w Hb' Hh Hw;
      rewrite (binarize_binary t _ Ht (Hb b' h w c Hb' Hh Hw Hc)); reflexivity.
  - unfold Spec.f_block.
    rewrite (reduce_ext B H W per_image
               (fun b h w c => at4 gt b h w c * Spec.binarize (Some t) (at4 pr b h w c))
               (fun b h w c => at4 gt b h w c * Spec.binarize None (at4 pr b h w c))
               b c), 
            (reduce_ext B H W per_image
               (fun b h w c => Spec.binarize (Some t) (at4 pr b h w c))
               (fun b h w c => Spec.binarize None (at4 pr b h w c))
               b c);
      try reflexivity; try exact Hbb;
      intros b' h w Hb' Hh Hw;
      rewrite (binarize_binary t _ Ht (Hb b' h w c Hb' Hh Hw Hc)); reflexivity.
Qed.

End MoreScoreTheorems.

(** ** Backend exceptions *)

Section Errors.

Lemma lift2_none_r (op : R -> R -> R) (a : result) : lift2 op a None = None.
Proof. destruct a; reflexivity. Qed.

Lemma sum_none (axes : list nat) (keepdims : bool) : sum None axes keepdims = None.
Proof. induction axes as [|k axes IH]; simpl; [|rewrite IH]; reflexivity. Qed.

Lemma apply_threshold_shape (threshold : option R) (t : tensor) :
  exists t', apply_threshold threshold (ok t) = Some t' /\ shape t' = shape t.
Proof.
  destruct threshold as [c|]; simpl; eexists; split; reflexivity.
Qed.

Lemma tmap2_incompatible (op : R -> R -> R) (a b : tensor) :
  broadcast_shape (shape a) (shape b) = None -> tmap2 op a b = None.
Proof. intros E. unfold tmap2. rewrite E. reflexivity. Qed.

Lemma lift2_incompatible (op : R -> R -> R) (a b : result) (s1 s2 : list nat)
    (f g : list nat -> R) :
  has a s1 f -> has b s2 g -> broadcast_shape s1 s2 = None ->
  lift2 op a b = None.
Proof.
  intros (ta & -> & Ha & _) (tb & -> & Hb & _) E. simpl.
  apply tmap2_incompatible. rewrite Ha, Hb. exact E.
Qed.

(** Reducing axis 2 of a tensor of rank below 3 fails, whatever axes are
    reduced after it. *)
Lemma sum_low_rank (x : result) (s : list nat) (f : list nat -> R)
    (per_image : bool) :
  has x s f -> (length s < 3)%nat ->
  sum x (if per_image then [1; 2]%nat else [0; 1; 2]%nat) false = None.
Proof.
  intros (t & -> & Hs & _) Hl.
  assert (E : sum_axis false 2 t = None).
  { unfold sum_axis. rewrite Hs.
    destruct (Nat.ltb_spec 2 (length s)); [lia | reflexivity]. }
  destruct per_image; cbn [sum fold_right bind]; rewrite E; reflexivity.
Qed.

(** X10.  When the shapes of ground truth and prediction do not
    broadcast, the scores and the focal losses raise the backend's
    exception. *)
Theorem incompatible_shapes_fail (backend : config) (gt pr class_weights : tensor)
    (beta smooth gamma alpha : R) (per_image : bool) (threshold : option R) :
  broadcast_shape (shape gt) (shape pr) = None ->
  iou_score gt pr class_weights smooth per_image threshold = None
  /\ f_score gt pr class_weights beta smooth per_image threshold = None
  /\ categorical_focal_loss backend gt pr gamma alpha = None
  /\ focal_loss backend gt pr gamma alpha = None.
Proof.
  intros E.
  destruct (apply_threshold_shape threshold pr) as (p & Ep & Hp).
  assert (Em : ok gt *! apply_threshold threshold (ok pr) = None).
  { rewrite Ep. apply tmap2_incompatible. rewrite Hp. exact E. }
  assert (Ea : ok gt +! apply_threshold threshold (ok pr) = None).
  { rewrite Ep. apply tmap2_incompatible. rewrite Hp. exact E. }
  assert (Ec : forall a g, categorical_focal_loss backend gt pr g a = None).
  { intros a g. unfold categorical_focal_loss.
    replace (lift1 Ropp (ok gt)
             *! lift1 log (lift1 (clip (epsilon backend) (1 - epsilon backend))
                             (ok pr)))
      with (@None tensor) by (symmetry; apply tmap2_incompatible; exact E).
    rewrite lift2_none_r. reflexivity. }
  split; [|split; [|split]].
  - unfold iou_score. rewrite Em, Ea, !sum_none.
    destruct per_image; reflexivity.
  - unfold f_score. rewrite Em, !sum_none, !lift2_none_r.
    destruct per_image; reflexivity.
  - apply Ec.
  - unfold focal_loss. rewrite Ec. reflexivity.
Qed.

(** X11.  On tensors of rank below 3 (a single mask, for instance) the
    scores raise the backend's exception: axis 2 is out of range. *)
Theorem low_rank_fails (gt pr class_weights : tensor) (beta smooth : R)
    (per_image : bool) (threshold : option R) :
  shape pr = shape gt -> (length (shape gt) < 3)%nat ->
  iou_score gt pr class_weights smooth per_image threshold = None
  /\ f_score gt pr class_weights beta smooth per_image threshold = None.
Proof.
  intros Hs Hl.
  destruct (apply_threshold_shape threshold pr) as (p & Ep & Hp).
  assert (Hm : has (ok gt *! apply_threshold threshold (ok pr)) (shape gt)
                 (fun i => elt gt i * elt p i)).
  { rewrite Ep. apply has_lift2_same; [apply has_ok|].
    rewrite <- Hs, <- Hp. apply has_ok. }
  split.
  - unfold iou_score.
    rewrite (sum_low_rank _ _ _ per_image Hm Hl).
    destruct per_image; cbn [lift2 bind mean_axis mean]; reflexivity.
  - unfold f_score.
    rewrite (sum_low_rank _ _ _ per_image Hm Hl), !lift2_none_r.
    destruct per_image; cbn [lift2 bind mean_axis mean]; reflexivity.
Qed.

(** X12.  A list of class weights whose length is neither the number of
    channels nor 1 makes the scores raise the backend's exception. *)
Theorem wrong_weight_count_fails (B H W C : nat) (gt pr : tensor) (w : list R)
    (beta smooth : R) (per_image : bool) (threshold : option R) :
  shape gt = [B; H; W; C] -> shape pr = [B; H; W; C] ->
  length w <> C -> length w <> 1%nat -> C <> 1%nat ->
  iou_score gt pr (of_list w) smooth per_image threshold = None
  /\ f_score gt pr (of_list w) beta smooth per_image threshold = None.
Proof.
  intros Hgt Hpr Hn H1 HC. destruct gt as [sg g], pr as [sp p].
  simpl in Hgt, Hpr. subst sg sp.
  assert (E : broadcast_shape [C] [length w] = None).
  { unfold broadcast_shape, bshape_rev, bdim. cbn [rev app].
    destruct (Nat.eqb_spec C (length w)); [congruence|].
    destruct (Nat.eqb_spec C 1); [congruence|].
    destruct (Nat.eqb_spec (length w) 1); [congruence|]. reflexivity. }
  unfold iou_score, f_score.
  split; destruct per_image; cbn [sum fold_right];
    match goal with
    | |- mean ?x = None =>
        assert (Hx : x = None)
          by (eapply lift2_incompatible; [has_step | apply has_mk | exact E]);
        rewrite Hx; reflexivity
    end.
Qed.

End Errors.

(** ** Further properties of the losses *)

Section LossTheorems.

Variable backend : config.

(** X13.  On a ground truth whose entries are all 0 or 1,
    [categorical_focal_loss] is minus the mean of
    alpha * gt * (1 - pr)^gamma * log(pr) on the clipped prediction: the
    second factor [gt] is then without effect. *)
Theorem categorical_focal_loss_binary (gt pr : tensor) (gamma alpha : R) :
  shape pr = shape gt -> binary gt ->
  categorical_focal_loss backend gt pr gamma alpha
  = Some (LossSpec.focal_formula (epsilon backend) (shape gt)
            (elt gt) (elt pr) gamma alpha).
Proof.
  intros Hs Hb. rewrite categorical_focal_loss_closed_form by exact Hs.
  f_equal. unfold LossSpec.focal_squared_formula, LossSpec.focal_formula.
  f_equal. apply mean_all_ext. intros i Hi.
  destruct (Hb i Hi) as [-> | ->]; ring.
Qed.

(** X14.  [categorical_focal_loss] is never negative, for a non-negative
    alpha and gamma and an epsilon in (0, 1/2]. *)
Theorem categorical_focal_loss_nonneg (gt pr : tensor) (gamma alpha : R) :
  shape pr = shape gt -> (0 < size (shape gt))%nat ->
  0 < epsilon backend <= 1 / 2 -> 0 <= alpha -> 0 <= gamma ->
  exists v, categorical_focal_loss backend gt pr gamma alpha = Some v /\ 0 <= v.
Proof.
  intros Hs Hn [He1 He2] Ha Hg. eexists.
  split; [apply categorical_focal_loss_closed_form; exact Hs|].
  rewrite focal_squared_as_mean, <- (mean_all_const (shape gt) 0 Hn).
  apply mean_all_le; [exact Hn|]. intros i _.
  apply element_loss_nonneg; assumption.
Qed.

(** X15.  The focal loss treats foreground and background alike: on the
    complements [1 - gt] and [1 - pr] it has the value it has on [gt] and
    [pr]. *)
Theorem focal_loss_complement (gt pr ngt npr : tensor) (gamma alpha : R) :
  shape pr = shape gt ->
  #1 -! ok gt = Some ngt -> #1 -! ok pr = Some npr ->
  focal_loss backend ngt npr gamma alpha = focal_loss backend gt pr gamma alpha.
Proof.
  intros Hs Eg Ep.
  destruct (has_lift2_rank0_l Rminus _ _ _ _ _ (has_scalar 1) (has_ok gt))
    as (ngt' & Eg' & Hsg & Hg).
  destruct (has_lift2_rank0_l Rminus _ _ _ _ _ (has_scalar 1) (has_ok pr))
    as (npr' & Ep' & Hsp & Hp).
  rewrite Eg in Eg'. rewrite Ep in Ep'.
  injection Eg' as <-. injection Ep' as <-.
  rewrite !focal_loss_closed_form by congruence.
  f_equal. rewrite Hsg. apply mean_all_ext. intros i Hi.
  rewrite Hg by exact Hi. rewrite Hp by (rewrite Hs; exact Hi).
  replace (1 - (1 - elt gt i)) with (elt gt i) by ring.
  replace (1 - (1 - elt pr i)) with (elt pr i) by ring.
  apply Rplus_comm.
Qed.

(** X16.  [categorical_crossentropy] does not depend on the scale of the
    prediction: multiplying every entry of [pr] by the same non-zero
    number leaves it unchanged, where no channel sum is zero. *)
Theorem categorical_crossentropy_scale_invariant (gt pr class_weights : tensor)
    (d0 d1 d2 d3 : nat) (k : R) :
  let s := [d0; d1; d2; d3] in
  shape gt = s -> shape pr = s -> weights_for d3 class_weights -> k <> 0 ->
  (forall i, in_range s i ->
     LossSpec.axis_sum s (channel_axis backend) (elt pr) i <> 0) ->
  categorical_crossentropy backend gt (scaled k pr) class_weights
  = categorical_crossentropy backend gt pr class_weights.
Proof.
  intros s Hgt Hpr Hcw Hk Hne.
  rewrite !(categorical_crossentropy_closed_form backend _ _ _ d0 d1 d2 d3)
    by assumption.
  f_equal. unfold LossSpec.crossentropy_formula. f_equal.
  apply mean_all_ext. intros i Hi.
  assert (En : LossSpec.normalize s (channel_axis backend) (elt (scaled k pr)) i
               = LossSpec.normalize s (channel_axis backend) (elt pr) i).
  { unfold LossSpec.normalize, LossSpec.axis_sum. cbn [scaled tmap elt].
    rewrite rsum_scale. specialize (Hne i Hi).
    unfold LossSpec.axis_sum in Hne. field. split; assumption. }
  fold s. rewrite En. reflexivity.
Qed.

(** X17.  [categorical_crossentropy] is never negative when ground truth
    and class weights are not, for an epsilon in (0, 1/2], where no
    channel sum of the prediction is zero. *)
Theorem categorical_crossentropy_nonneg (gt pr class_weights : tensor)
    (d0 d1 d2 d3 : nat) :
  let s := [d0; d1; d2; d3] in
  shape gt = s -> shape pr = s -> weights_for d3 class_weights ->
  weights_nonneg d3 class_weights ->
  (forall i, in_range s i -> 0 <= elt gt i) ->
  (forall i, in_range s i ->
     LossSpec.axis_sum s (channel_axis backend) (elt pr) i <> 0) ->
  (0 < size s)%nat -> 0 < epsilon backend <= 1 / 2 ->
  exists v, categorical_crossentropy backend gt pr class_weights = Some v
            /\ 0 <= v.
Proof.
  intros s Hgt Hpr Hcw Hw Hg _ Hn [He1 He2]. eexists.
  split; [apply (categorical_crossentropy_closed_form backend _ _ _ d0 d1 d2 d3);
          assumption|].
  unfold LossSpec.crossentropy_formula. fold s.
  rewrite <- mean_all_opp, <- (mean_all_const s 0 Hn).
  apply mean_all_le; [exact Hn|]. intros i Hi.
  destruct (neg_ln_clipped (epsilon backend) He1 He2
              (LossSpec.normalize s (channel_axis backend) (elt pr) i))
    as [Hl1 Hl2].
  assert (Hwi : 0 <= weight_of class_weights (last i 0%nat)).
  { apply in_range4 in Hi as (a & b & c & d & -> & _ & _ & _ & Hd).
    apply Hw. exact Hd. }
  specialize (Hg i Hi).
  replace (- (elt gt i
              * log (LossSpec.clipped (epsilon backend)
                       (LossSpec.normalize s (channel_axis backend) (elt pr) i))
              * weight_of class_weights (last i 0%nat)))
    with (elt gt i
          * - log (LossSpec.clipped (epsilon backend)
                     (LossSpec.normalize s (channel_axis backend) (elt pr) i))
          * weight_of class_weights (last i 0%nat)) by ring.
  apply Rmult_le_pos; [apply Rmult_le_pos|]; lra.
Qed.

End LossTheorems.

Section BinaryCrossentropy.

Variable backend : config.

Lemma bianary_crossentropy_closed_form (gt pr : tensor) :
  shape pr = shape gt ->
  bianary_crossentropy backend gt pr
  = Some (LossSpec.mean_all (shape gt)
            (fun i => element_bce (epsilon backend) (elt gt i) (elt pr i))).
Proof.
  intros Hs. destruct gt as [s g], pr as [sp p]. simpl in Hs. subst sp.
  unfold bianary_crossentropy, binary_crossentropy.
  erewrite has_mean by has_step. reflexivity.
Qed.

Lemma clipped_complement (eps p : R) :
  eps <= 1 / 2 ->
  LossSpec.clipped eps (1 - p) = 1 - LossSpec.clipped eps p.
Proof.
  intros He. unfold LossSpec.clipped, clip, Rmin, Rmax.
  destruct (Rle_dec (1 - p) eps), (Rle_dec p eps);
    repeat match goal with
           | |- context [Rle_dec ?a ?b] => destruct (Rle_dec a b)
           end; lra.
Qed.

(** X18.  On a ground truth whose entries are all 0 or 1, the focal loss
    with gamma = 0 and alpha = 1 is the binary cross-entropy. *)
Theorem focal_loss_is_binary_crossentropy (gt pr : tensor) :
  shape pr = shape gt -> binary gt -> epsilon backend <= 1 / 2 ->
  focal_loss backend gt pr 0 1 = bianary_crossentropy backend gt pr.
Proof.
  intros Hs Hb He.
  rewrite focal_loss_closed_form, bianary_crossentropy_closed_form by exact Hs.
  f_equal. apply mean_all_ext. intros i Hi.
  unfold element_loss, element_bce.
  rewrite !pow_zero, (clipped_complement _ _ He).
  destruct (Hb i Hi) as [-> | ->]; ring.
Qed.

(** X19.  The binary cross-entropy of a ground truth with entries in
    [0, 1] is never negative, for an epsilon in (0, 1/2]. *)
Theorem bianary_crossentropy_nonneg (gt pr : tensor) :
  shape pr = shape gt -> (0 < size (shape gt))%nat ->
  0 < epsilon backend <= 1 / 2 ->
  (forall i, in_range (shape gt) i -> 0 <= elt gt i <= 1) ->
  exists v, bianary_crossentropy backend gt pr = Some v /\ 0 <= v.
Proof.
  intros Hs Hn [He1 He2] Hg. eexists.
  split; [apply bianary_crossentropy_closed_form; exact Hs|].
  rewrite <- (mean_all_const (shape gt) 0 Hn).
  apply mean_all_le; [exact Hn|]. intros i Hi. specialize (Hg i Hi).
  unfold element_bce.
  destruct (neg_ln_clipped (epsilon backend) He1 He2 (elt pr i)) as [_ H1].
  destruct (neg_ln_clipped (epsilon backend) He1 He2 (1 - elt pr i)) as [H0 H2].
  rewrite (clipped_complement _ _ He2) in H2.
  assert (0 <= elt gt i * - log (LossSpec.clipped (epsilon backend) (elt pr i)))
    by (apply Rmult_le_pos; lra).
  assert (0 <= (1 - elt gt i)
               * - log (1 - LossSpec.clipped (epsilon backend) (elt pr i)))
    by (apply Rmult_le_pos; lra).
  lra.
Qed.

End BinaryCrossentropy.

(** ** Instances at concrete tensors *)

Lemma iou_score_in_unit_interval_witness :
  exists v,
    iou_score (ones [1; 2; 2; 2]%nat) (full [1; 2; 2; 2]%nat (1 / 2)) (scalar 1)
      SMOOTH true (Some (1 / 4)) = Some v
    /\ 0 <= v <= 1.
Proof.
  apply (iou_score_in_unit_interval 1 2 2 2).
  - reflexivity.
  - reflexivity.
  - left. reflexivity.
  - intros c _. cbv [weight_of scalar shape elt]. lra.
  - intros b h w c _ _ _ _. cbv [at4 elt ones full]. lra.
  - intros b h w c _ _ _ _. cbv [at4 elt full]. lra.
  - lia.
  - lia.
  - unfold SMOOTH. lra.
Defined.

Lemma f_score_in_unit_interval_witness :
  exists v,
    f_score (ones [1; 2; 2; 2]%nat) (full [1; 2; 2; 2]%nat (1 / 2)) (scalar 1)
      2 SMOOTH false None = Some v
    /\ 0 <= v <= 1.
Proof.
  apply (f_score_in_unit_interval 1 2 2 2).
  - reflexivity.
  - reflexivity.
  - left. reflexivity.
  - intros c _. cbv [weight_of scalar shape elt]. lra.
  - intros b h w c _ _ _ _. cbv [at4 elt ones full]. lra.
  - intros b h w c _ _ _ _. cbv [at4 elt full]. lra.
  - lia.
  - lia.
  - unfold SMOOTH. lra.
Defined.

Lemma dice_at_least_iou_witness :
  exists i d,
    iou_score (ones [2; 1; 2; 1]%nat) (full [2; 1; 2; 1]%nat (1 / 2)) (scalar 3)
      SMOOTH true None = Some i
    /\ f_score (ones [2; 1; 2; 1]%nat) (full [2; 1; 2; 1]%nat (1 / 2)) (scalar 3)
         1 SMOOTH true None = Some d
    /\ i <= d.
Proof.
  apply (dice_at_least_iou 2 1 2 1).
  - reflexivity.
  - reflexivity.
  - left. reflexivity.
  - intros c _. cbv [weight_of scalar shape elt]. lra.
  - intros b h w c _ _ _ _. cbv [at4 elt ones full]. lra.
  - intros b h w c _ _ _ _. cbv [at4 elt full]. lra.
  - lia.
  - lia.
  - unfold SMOOTH. lra.
Defined.

Lemma dice_symmetric_witness :
  f_score (ones [1; 2; 2; 1]%nat) (full [1; 2; 2; 1]%nat (1 / 3)) (of_list [2])
    1 SMOOTH true None
  = f_score (full [1; 2; 2; 1]%nat (1 / 3)) (ones [1; 2; 2; 1]%nat) (of_list [2])
      1 SMOOTH true None.
Proof.
  apply (dice_symmetric 1 2 2 1); [reflexivity | reflexivity | right; reflexivity].
Defined.

Lemma batch_of_one_witness :
  iou_score (ones [1; 2; 2; 3]%nat) (full [1; 2; 2; 3]%nat (1 / 2)) (scalar 1)
    SMOOTH true None
  = iou_score (ones [1; 2; 2; 3]%nat) (full [1; 2; 2; 3]%nat (1 / 2)) (scalar 1)
      SMOOTH false None
  /\ f_score (ones [1; 2; 2; 3]%nat) (full [1; 2; 2; 3]%nat (1 / 2)) (scalar 1)
       1 SMOOTH true None
     = f_score (ones [1; 2; 2; 3]%nat) (full [1; 2; 2; 3]%nat (1 / 2)) (scalar 1)
         1 SMOOTH false None.
Proof.
  apply (batch_of_one 1 2 2 3);
    [reflexivity | reflexivity | reflexivity | left; reflexivity].
Defined.

Lemma empty_masks_score_one_witness :
  iou_score (full [2; 2; 2; 1]%nat 0) (full [2; 2; 2; 1]%nat 0) (scalar 1)
    SMOOTH true (Some (1 / 2)) = Some 1
  /\ f_score (full [2; 2; 2; 1]%nat 0) (full [2; 2; 2; 1]%nat 0) (scalar 1)
       1 SMOOTH true (Some (1 / 2)) = Some 1.
Proof.
  apply (empty_masks_score_one 2 2 2 1).
  - reflexivity.
  - reflexivity.
  - intros b h w c _ _ _ _. reflexivity.
  - intros b h w c _ _ _ _. reflexivity.
  - simpl. lra.
  - lia.
  - lia.
  - unfold SMOOTH. lra.
Defined.

Lemma scalar_weight_scales_witness :
  (exists x,
     iou_score (ones [1; 1; 2; 2]%nat) (full [1; 1; 2; 2]%nat (1 / 2)) (scalar 1)
       SMOOTH true None = Some x
     /\ iou_score (ones [1; 1; 2; 2]%nat) (full [1; 1; 2; 2]%nat (1 / 2)) (scalar 3)
          SMOOTH true None = Some (3 * x))
  /\ (exists y,
        f_score (ones [1; 1; 2; 2]%nat) (full [1; 1; 2; 2]%nat (1 / 2)) (scalar 1)
          1 SMOOTH true None = Some y
        /\ f_score (ones [1; 1; 2; 2]%nat) (full [1; 1; 2; 2]%nat (1 / 2)) (scalar 3)
             1 SMOOTH true None = Some (3 * y)).
Proof.
  apply (scalar_weight_scales 1 1 2 2); reflexivity.
Defined.

Lemma scalar_weight_is_constant_list_witness :
  iou_score (ones [1; 1; 2; 2]%nat) (full [1; 1; 2; 2]%nat (1 / 2)) (scalar 3)
    SMOOTH true None
  = iou_score (ones [1; 1; 2; 2]%nat) (full [1; 1; 2; 2]%nat (1 / 2))
      (of_list [3; 3]) SMOOTH true None
  /\ f_score (ones [1; 1; 2; 2]%nat) (full [1; 1; 2; 2]%nat (1 / 2)) (scalar 3)
       1 SMOOTH true None
     = f_score (ones [1; 1; 2; 2]%nat) (full [1; 1; 2; 2]%nat (1 / 2))
         (of_list [3; 3]) 1 SMOOTH true None.
Proof.
  apply (scalar_weight_is_constant_list 1 1 2 2); reflexivity.
Defined.

Lemma threshold_keeps_binary_witness :
  iou_score (ones [1; 2; 2; 1]%nat) (full [1; 2; 2; 1]%nat 1) (scalar 1)
    SMOOTH true (Some (1 / 2))
  = iou_score (ones [1; 2; 2; 1]%nat) (full [1; 2; 2; 1]%nat 1) (scalar 1)
      SMOOTH true None
  /\ f_score (ones [1; 2; 2; 1]%nat) (full [1; 2; 2; 1]%nat 1) (scalar 1)
       1 SMOOTH true (Some (1 / 2))
     = f_score (ones [1; 2; 2; 1]%nat) (full [1; 2; 2; 1]%nat 1) (scalar 1)
         1 SMOOTH true None.
Proof.
  apply (threshold_keeps_binary 1 2 2 1).
  - reflexivity.
  - reflexivity.
  - left. reflexivity.
  - intros b h w c _ _ _ _. right. reflexivity.
  - lra.
Defined.

Lemma incompatible_shapes_fail_witness :
  let backend := mkConfig (1 / 10000000) channels_last in
  let gt := ones [1; 2; 2; 2]%nat in
  let pr := ones [1; 3; 2; 2]%nat in
  iou_score gt pr (scalar 1) SMOOTH true None = None
  /\ f_score gt pr (scalar 1) 1 SMOOTH true None = None
  /\ categorical_focal_loss backend gt pr 2 (1 / 4) = None
  /\ focal_loss backend gt pr 2 (1 / 4) = None.
Proof.
  intros backend gt pr. apply incompatible_shapes_fail. reflexivity.
Defined.

Lemma low_rank_fails_witness :
  iou_score (ones [4; 4]%nat) (ones [4; 4]%nat) (scalar 1) SMOOTH true None = None
  /\ f_score (ones [4; 4]%nat) (ones [4; 4]%nat) (scalar 1) 1 SMOOTH true None
     = None.
Proof.
  apply low_rank_fails; [reflexivity | simpl; lia].
Defined.

Lemma wrong_weight_count_fails_witness :
  iou_score (ones [1; 2; 2; 3]%nat) (ones [1; 2; 2; 3]%nat) (of_list [1; 2])
    SMOOTH true None = None
  /\ f_score (ones [1; 2; 2; 3]%nat) (ones [1; 2; 2; 3]%nat) (of_list [1; 2])
       1 SMOOTH true None = None.
Proof.
  apply (wrong_weight_count_fails 1 2 2 3);
    [reflexivity | reflexivity | simpl; lia | simpl; lia | lia].
Defined.

Lemma categorical_focal_loss_binary_witness :
  let backend := mkConfig (1 / 10000000) channels_last in
  let gt := ones [1; 1; 2; 1]%nat in
  let pr := full [1; 1; 2; 1]%nat (1 / 2) in
  categorical_focal_loss backend gt pr 2 (1 / 4)
  = Some (LossSpec.focal_formula (1 / 10000000) [1; 1; 2; 1]%nat
            (elt gt) (elt pr) 2 (1 / 4)).
Proof.
  intros backend gt pr.
  apply (categorical_focal_loss_binary backend gt pr); [reflexivity|].
  intros i _. right. reflexivity.
Defined.

Lemma categorical_focal_loss_nonneg_witness :
  let backend := mkConfig (1 / 10000000) channels_last in
  exists v,
    categorical_focal_loss backend (full [1; 1; 2; 1]%nat (1 / 3))
      (full [1; 1; 2; 1]%nat (1 / 2)) 2 (1 / 4) = Some v
    /\ 0 <= v.
Proof.
  intros backend. apply categorical_focal_loss_nonneg.
  - reflexivity.
  - cbv. lia.
  - cbv [epsilon backend]. lra.
  - lra.
  - lra.
Defined.

Lemma focal_loss_complement_witness :
  let backend := mkConfig (1 / 10000000) channels_last in
  let s := [1; 1; 1; 2]%nat in
  let gt := ones s in
  let pr := full s (1 / 4) in
  let ngt := mkT s (fun i => 1 - elt gt (bindex s i)) in
  let npr := mkT s (fun i => 1 - elt pr (bindex s i)) in
  focal_loss backend ngt npr 2 (1 / 4) = focal_loss backend gt pr 2 (1 / 4).
Proof.
  intros backend s gt pr ngt npr.
  apply (focal_loss_complement backend gt pr ngt npr); reflexivity.
Defined.

Lemma categorical_crossentropy_scale_invariant_witness :
  let backend := mkConfig (1 / 10000000) channels_last in
  let gt := ones [1; 1; 1; 2]%nat in
  let pr := full [1; 1; 1; 2]%nat (1 / 4) in
  categorical_crossentropy backend gt (scaled 8 pr) (scalar 1)
  = categorical_crossentropy backend gt pr (scalar 1).
Proof.
  intros backend gt pr.
  apply (categorical_crossentropy_scale_invariant backend gt pr (scalar 1) 1 1 1 2).
  - reflexivity.
  - reflexivity.
  - left. reflexivity.
  - lra.
  - intros i _.
    cbv [LossSpec.axis_sum channel_axis image_data_format backend nth rsum
         elt pr full].
    lra.
Defined.

Lemma categorical_crossentropy_nonneg_witness :
  let backend := mkConfig (1 / 10000000) channels_last in
  exists v,
    categorical_crossentropy backend (ones [1; 1; 1; 2]%nat)
      (full [1; 1; 1; 2]%nat (1 / 4)) (of_list [1; 2]) = Some v
    /\ 0 <= v.
Proof.
  intros backend.
  apply (categorical_crossentropy_nonneg backend _ _ _ 1 1 1 2).
  - reflexivity.
  - reflexivity.
  - right. reflexivity.
  - intros c Hc. cbv [weight_of of_list shape elt length hd].
    destruct c as [|[|c]]; [simpl; lra | simpl; lra | lia].
  - intros i _. cbv [elt ones full]. lra.
  - intros i _.
    cbv [LossSpec.axis_sum channel_axis image_data_format backend nth rsum
         elt full].
    lra.
  - cbv. lia.
  - cbv [epsilon backend]. lra.
Defined.

Lemma focal_loss_is_binary_crossentropy_witness :
  let backend := mkConfig (1 / 10000000) channels_last in
  let gt := ones [1; 1; 2; 1]%nat in
  let pr := full [1; 1; 2; 1]%nat (1 / 2) in
  focal_loss backend gt pr 0 1 = bianary_crossentropy backend gt pr.
Proof.
  intros backend gt pr. apply focal_loss_is_binary_crossentropy.
  - reflexivity.
  - intros i _. right. reflexivity.
  - cbv [epsilon backend]. lra.
Defined.

Lemma bianary_crossentropy_nonneg_witness :
  let backend := mkConfig (1 / 10000000) channels_last in
  exists v,
    bianary_crossentropy backend (full [1; 1; 2; 1]%nat (1 / 3))
      (full [1; 1; 2; 1]%nat (1 / 2)) = Some v
    /\ 0 <= v.
Proof.
  intros backend. apply bianary_crossentropy_nonneg.
  - reflexivity.
  - cbv. lia.
  - cbv [epsilon backend]. lra.
  - intros i _. cbv [elt full]. lra.
Defined.
